(** * roxy: the dynamic port-forwarding engine of [roxy/server.py]

    A shallow embedding of the mapping store ([load_mappings],
    [save_mappings]), of the allocation done by the request handler
    [index], of the proxy registry ([stop_proxy], [start_tcp_proxy]),
    of the start-up ([restart_proxies]), of the relay loop
    ([forward_data]) and of request threads that interleave their file
    operations, followed by the properties of the specification
    that can be settled on it and by further properties of the code. *)

From Stdlib Require Import ZArith Ascii String.
From stdpp Require Import base list gmap strings pretty.

Open Scope string_scope.
Open Scope Z_scope.
Open Scope list_scope.

(** ** Python values used by the server *)

(** Exceptions that the modelled code can raise to its caller. *)
Inductive exn :=
| OSError          (* open() on a path that cannot be opened *)
| AttributeError   (* .items() on a value that is not a dict *)
| IndexError.      (* k[1] on a tuple with fewer than two items *)

Inductive result (A : Type) :=
| Ok (a : A)
| Raise (e : exn).
Arguments Ok {A} a.
Arguments Raise {A} e.

Global Instance exn_eq_dec : EqDecision exn.
Proof. solve_decision. Defined.

Global Instance result_eq_dec `{EqDecision A} : EqDecision (result A).
Proof. solve_decision. Defined.

(** *** Strings

    Python [str] values are modelled as Rocq strings (byte strings of
    the UTF-8 encoding).  Both separators used by the server, the pipe
    and the colon, are ASCII, so splitting bytes and splitting code
    points agree. *)

(** [s.split(sep)] for a one-character separator: the result is never
    empty, and [n] occurrences of [sep] give [n + 1] parts. *)
Fixpoint split (sep : ascii) (s : string) : list string :=
  match s with
  | EmptyString => [EmptyString]
  | String c s' =>
      if decide (c = sep) then EmptyString :: split sep s'
      else match split sep s' with
           | [] => [String c EmptyString]
           | part :: parts => String c part :: parts
           end
  end.

(** Number of occurrences of a character. *)
Fixpoint occurrences (sep : ascii) (s : string) : nat :=
  match s with
  | EmptyString => 0%nat
  | String c s' =>
      if decide (c = sep) then S (occurrences sep s') else occurrences sep s'
  end.

(** [sep.join(parts)]; used to state that [split] loses nothing. *)
Fixpoint join (sep : ascii) (parts : list string) : string :=
  match parts with
  | [] => EmptyString
  | [p] => p
  | p :: ps => p +:+ String sep (join sep ps)
  end.

(** *** Dictionaries

    A Python [dict] keeps its items in insertion order; assigning to a
    key that is present replaces the value in place, assigning to a new
    key appends.  The order decides which item survives when a dict
    comprehension maps two keys to the same new key, so dictionaries are
    association lists here. *)
Section dict.
Context {K V : Type} `{EqDecision K}.

Definition dict := list (K * V).

(** [d.get(k)]; [k in d] is [is_Some (dict_get d k)]. *)
Fixpoint dict_get (d : dict) (k : K) : option V :=
  match d with
  | [] => None
  | (k', v) :: d' => if decide (k' = k) then Some v else dict_get d' k
  end.

(** [d[k] = v] *)
Fixpoint dict_set (d : dict) (k : K) (v : V) : dict :=
  match d with
  | [] => [(k, v)]
  | (k', v') :: d' =>
      if decide (k' = k) then (k, v) :: d' else (k', v') :: dict_set d' k v
  end.

(** [dict(items)]: the items assigned one after the other. *)
Definition dict_of_items (items : list (K * V)) : dict :=
  fold_left (fun acc kv => dict_set acc kv.1 kv.2) items [].

Definition keys (d : dict) : list K := d.*1.
Definition values (d : dict) : list V := d.*2.
End dict.
Arguments dict : clear implicits.

(** [max(xs)] on a list of integers.  On the empty list Python raises
    [ValueError]; [index] tests the dict before it takes the maximum, so
    that case is never evaluated and is given the value 0 here. *)
Definition py_max (xs : list Z) : Z :=
  match xs with
  | [] => 0
  | x :: xs' => fold_left Z.max xs' x
  end.

(** ** Configuration *)

Definition START_PORT : Z := 10000.
Definition DELIMITER : ascii := "|"%char.

Definition PROTOCOL_PORTS : dict string Z :=
  [("ssh", 22); ("telnet", 23); ("http", 80); ("https", 443)].

(** ** The mapping store *)

(** Keys of the in-memory mapping are Python tuples of strings:
    [(ip, protocol)] when built by [index], and whatever
    [tuple(k.split(DELIMITER))] gives when loaded. *)
Definition key := list string.
Definition mappings := dict key Z.

Definition mapping_key (ip protocol : string) : key := [ip; protocol].

(** What [json.load] finds in a file that parses: the members of an
    object in textual order, with integer values, or something that is
    not an object (the set-up command initialises the file with an empty
    array). *)
Inductive json :=
| JObject (members : list (string * Z))
| JArray (items : list Z).

(** The states of [MAPPING_FILE] that the store distinguishes. *)
Inductive file :=
| NoFile                 (* os.path.exists is False *)
| Unopenable             (* exists, open() raises OSError *)
| EmptyFile              (* zero bytes: json.load raises JSONDecodeError *)
| InvalidJson            (* text that is not JSON: JSONDecodeError *)
| Json (doc : json).     (* text that parses *)

Global Instance json_eq_dec : EqDecision json.
Proof. solve_decision. Defined.
Global Instance file_eq_dec : EqDecision file.
Proof. solve_decision. Defined.

(** [load_mappings()] *)
Definition load_mappings (f : file) : result mappings :=
  match f with
  | NoFile => Ok []
  | Unopenable => Raise OSError
  | EmptyFile | InvalidJson => Ok []
  | Json (JArray _) => Raise AttributeError
  | Json (JObject members) =>
      Ok (dict_of_items
            (map (fun kv => (split DELIMITER kv.1, kv.2))
                 (dict_of_items members)))
  end.

(** The key written for one item: [f"{k[0]}{DELIMITER}{k[1]}"]. *)
Definition serialize_key (k : key) : result string :=
  match k with
  | k0 :: k1 :: _ => Ok (k0 +:+ String DELIMITER k1)
  | _ => Raise IndexError
  end.

(** The dict comprehension of [save_mappings], item by item. *)
Fixpoint serialize_items (items : list (key * Z)) (acc : dict string Z)
  : result (dict string Z) :=
  match items with
  | [] => Ok acc
  | (k, v) :: items' =>
      match serialize_key k with
      | Ok s => serialize_items items' (dict_set acc s v)
      | Raise e => Raise e
      end
  end.

(** [save_mappings(mappings)]: the file is opened for writing, which
    truncates it, before the comprehension runs; when the comprehension
    raises, the [with] block closes the truncated file. *)
Definition save_mappings (m : mappings) (f : file) : file * result unit :=
  match f with
  | Unopenable => (Unopenable, Raise OSError)
  | _ =>
      match serialize_items m [] with
      | Ok o => (Json (JObject o), Ok tt)
      | Raise e => (EmptyFile, Raise e)
      end
  end.

(** Lines 166-170 of [index]: the port given to a new key. *)
Definition next_port (m : mappings) : Z :=
  match m with
  | [] => START_PORT
  | _ :: _ => let max_port := py_max (values m) in max_port + 1
  end.

(** Lines 163-171 of [index]: the port for [mapping_key], and the
    mapping to save when the key was new. *)
Definition allocate (m : mappings) (k : key) : Z * option mappings :=
  match dict_get m k with
  | Some port => (port, None)
  | None => let port := next_port m in (port, Some (dict_set m k port))
  end.

(** Lines 160-172 of [index], the operation the specification calls
    [resolve]: load, look up or allocate, save. *)
Definition resolve (ip protocol : string) (f : file) : file * result Z :=
  match load_mappings f with
  | Raise e => (f, Raise e)
  | Ok m =>
      match allocate m (mapping_key ip protocol) with
      | (port, None) => (f, Ok port)
      | (port, Some m') =>
          match save_mappings m' f with
          | (f', Ok _) => (f', Ok port)
          | (f', Raise e) => (f', Raise e)
          end
      end
  end.

(** ** Predicates on the store *)

(** Keys that [save_mappings] can write: tuples with at least the two
    items it reads. *)
Definition writable_key (k : key) : Prop := (2 ≤ length k)%nat.

(** File keys that load as a writable key. *)
Definition loads_writable (s : string) : Prop :=
  writable_key (split DELIMITER s).

(** The keys the request handler is meant for: a host and a protocol,
    neither containing the delimiter. *)
Definition plain_key (k : key) : Prop :=
  ∃ ip protocol, k = mapping_key ip protocol ∧
                 occurrences DELIMITER ip = 0%nat ∧
                 occurrences DELIMITER protocol = 0%nat.

(** What the store guarantees between two requests. *)
Record store_inv (f : file) (m : mappings) : Prop := {
  inv_load : load_mappings f = Ok m;
  inv_keys : NoDup (keys m);
  inv_ports : NoDup (values m);
  inv_writable : Forall writable_key (keys m)
}.

(** The stores that [resolve] can produce from an empty one. *)
Inductive reachable : file → Prop :=
| reachable_empty f : load_mappings f = Ok [] → reachable f
| reachable_resolve f ip protocol :
    reachable f → reachable (resolve ip protocol f).1.

(** ** The request handler *)

Inductive http_method := GET | POST | HEAD.

(** The parts of Flask's [request] that [index] reads.  [args] and
    [form] are multi-dicts; [.get(name)] gives the first value of the
    name or [None], which is [dict_get] on the list of pairs. *)
Record request := {
  method : http_method;
  args : list (string * string);
  form : list (string * string);
  host : string
}.

Inductive response :=
| Redirect (location : string)            (* redirect(new_url) *)
| RenderIndex (error : option string).    (* render_template('index.html', ...) *)

Global Instance http_method_eq_dec : EqDecision http_method.
Proof. solve_decision. Defined.
Global Instance response_eq_dec : EqDecision response.
Proof. solve_decision. Defined.

(** Truth value of the result of [.get]: [None] and the empty string
    are false. *)
Definition truthy (o : option string) : bool :=
  match o with
  | None => false
  | Some s => negb (bool_decide (s = ""))
  end.

(** The arguments of the thread that [index] starts:
    [start_tcp_proxy(port, ip, internal_port)]. *)
Definition spawn := (Z * string * Z)%type.

(** Lines 185-188: the page shown when a parameter is missing. *)
Definition render_form (r : request) : response :=
  RenderIndex (if decide (method r = POST)
               then Some "Please specify both protocol and IP."
               else None).

(** [index()].  The result holds the file afterwards and either the
    response with the thread started, or the exception that leaves the
    view. *)
Definition index (r : request) (f : file)
  : file * result (response * option spawn) :=
  let params :=
    match method r with
    | POST => (dict_get (form r) "protocol", dict_get (form r) "ip")
    | GET => (dict_get (args r) "protocol", dict_get (args r) "ip")
    | HEAD => (None, None)
    end in
  match params with
  | (Some protocol, Some ip) =>
      if truthy (Some protocol) && truthy (Some ip) then
        match dict_get PROTOCOL_PORTS protocol with
        | None =>
            (f, Ok (RenderIndex
                      (Some ("Unsupported protocol '" +:+ protocol +:+ "'.")),
                    None))
        | Some internal_port =>
            match resolve ip protocol f with
            | (f', Raise e) => (f', Raise e)
            | (f', Ok port) =>
                let host_ip := hd "" (split ":" (host r)) in
                let new_url :=
                  protocol +:+ "://" +:+ host_ip +:+ ":" +:+ pretty port in
                (f', Ok (Redirect new_url, Some (port, ip, internal_port)))
            end
        end
      else (f, Ok (render_form r, None))
  | _ => (f, Ok (render_form r, None))
  end.

(** What a request does apart from the page it renders: the store
    afterwards, the redirect, the thread started, or the exception. *)
Definition redirect_of (r : response) : option string :=
  match r with
  | Redirect location => Some location
  | RenderIndex _ => None
  end.

Definition effect (o : file * result (response * option spawn))
  : file * result (option string * option spawn) :=
  (o.1, match o.2 with
        | Ok (r, s) => Ok (redirect_of r, s)
        | Raise e => Raise e
        end).

(** A request that names the host [a|b]. *)
Definition delimited_request : request :=
  {| method := GET;
     args := [("ip", "a|b"); ("protocol", "ssh")];
     form := [];
     host := "localhost:5000" |}.

(** ** The proxy registry *)

(** A worker thread runs [proxy_worker].  It binds and then sits in the
    accept loop, or it has left the function.  The listening socket is
    a local variable of the worker: no other code holds it, so a worker
    that waits in [accept] leaves the loop only when [accept] itself
    fails. *)
Inductive worker_state :=
| Accepting     (* bound and listening, blocked in accept *)
| Exited.       (* the thread has finished *)

(** The variables captured by the closure [proxy_worker], and where the
    thread is. *)
Record worker := {
  local_port : Z;
  remote_ip : string;
  remote_port : Z;
  state : worker_state
}.

(** [active_proxies] maps a port to its thread; threads are named by
    their position in the list of threads started so far.
    [unavailable] holds the ports on which the operating system refuses
    a bind: in use by some socket, or not permitted. *)
Record world := {
  active_proxies : gmap Z nat;
  threads : list worker;
  unavailable : gset Z
}.

Global Instance worker_state_eq_dec : EqDecision worker_state.
Proof. solve_decision. Defined.
Global Instance worker_eq_dec : EqDecision worker.
Proof. solve_decision. Defined.
Global Instance world_eq_dec : EqDecision world.
Proof. solve_decision. Defined.

(** How a call ends for its caller. *)
Inductive outcome :=
| Returns (w : world)             (* returns None *)
| Raises (e : exn) (w : world)    (* an exception reaches the caller *)
| Blocks (w : world).             (* waits in join() on a thread that is
                                     blocked in accept *)

Global Instance outcome_eq_dec : EqDecision outcome.
Proof. solve_decision. Defined.

(** [proxy_worker()] up to the point where the thread blocks or ends.
    A failing bind is caught inside the worker, printed, and the socket
    is closed by the [finally] clause.  The registry code reads a
    worker only through [join], which waits for the thread to end, so
    the worker's way to that point is taken in one step with the start
    of the thread. *)
Definition proxy_worker (port : Z) (ip : string) (rport : Z) (w : world)
  : world :=
  if decide (port ∈ unavailable w) then
    {| active_proxies := active_proxies w;
       threads := threads w ++
         [{| local_port := port; remote_ip := ip; remote_port := rport;
             state := Exited |}];
       unavailable := unavailable w |}
  else
    {| active_proxies := active_proxies w;
       threads := threads w ++
         [{| local_port := port; remote_ip := ip; remote_port := rport;
             state := Accepting |}];
       unavailable := {[port]} ∪ unavailable w |}.

(** [proxy_thread.join()] returns when the thread has finished. *)
Definition join_thread (t : nat) (w : world) : outcome :=
  match threads w !! t with
  | Some wk => match state wk with
               | Exited => Returns w
               | Accepting => Blocks w
               end
  | None => Returns w
  end.

(** [stop_proxy(port)] *)
Definition stop_proxy (port : Z) (w : world) : outcome :=
  match active_proxies w !! port with
  | Some proxy_thread =>
      join_thread proxy_thread
        {| active_proxies := delete port (active_proxies w);
           threads := threads w;
           unavailable := unavailable w |}
  | None => Returns w
  end.

(** [start_tcp_proxy(local_port, remote_ip, remote_port)] *)
Definition start_tcp_proxy (port : Z) (ip : string) (rport : Z) (w : world)
  : outcome :=
  let stopped :=
    if decide (is_Some (active_proxies w !! port))
    then stop_proxy port w else Returns w in
  match stopped with
  | Returns w1 =>
      let proxy_thread := length (threads w1) in
      let w2 := proxy_worker port ip rport w1 in
      Returns {| active_proxies := <[port := proxy_thread]> (active_proxies w2);
                 threads := threads w2;
                 unavailable := unavailable w2 |}
  | other => other
  end.

(** A listener is running on [port] for the target [(ip, rport)]. *)
Definition running (w : world) (port : Z) (ip : string) (rport : Z) : Prop :=
  ∃ t, active_proxies w !! port = Some t ∧
       threads w !! t = Some {| local_port := port; remote_ip := ip;
                                remote_port := rport; state := Accepting |}.

(** Every registered thread exists. *)
Definition registry_wf (w : world) : Prop :=
  map_Forall (fun _ t => (t < length (threads w))%nat) (active_proxies w).

Definition world_of (o : outcome) : world :=
  match o with
  | Returns w | Raises _ w | Blocks w => w
  end.

(** The process before any proxy was started, with every port free. *)
Definition fresh_world : world :=
  {| active_proxies := ∅; threads := []; unavailable := ∅ |}.

(** A listener runs on port 10000 for the target 10.0.0.1:22. *)
Definition listening_world : world :=
  world_of (start_tcp_proxy 10000 "10.0.0.1" 22 fresh_world).

(** Port 10000 is taken by another program. *)
Definition busy_world : world :=
  {| active_proxies := ∅; threads := []; unavailable := {[10000]} |}.

(** ** Start-up *)

(** What [restart_proxies] does for one stored mapping: it starts the
    thread [start_tcp_proxy(port, ip, internal_port)] and prints that it
    restarted the proxy, or it prints the warning about a protocol it
    does not know. *)
Inductive restart_event :=
| Restarted (port : Z) (ip : string) (internal_port : Z)
| Skipped (protocol ip : string) (port : Z).

(** How [restart_proxies] can fail: with the exception of
    [load_mappings], or with the [ValueError] of the unpacking
    [ip, protocol = mapping_key] on a tuple that is not a pair. *)
Inductive restart_exn :=
| LoadFailed (e : exn)
| ValueError.

Global Instance restart_event_eq_dec : EqDecision restart_event.
Proof. solve_decision. Defined.
Global Instance restart_exn_eq_dec : EqDecision restart_exn.
Proof. solve_decision. Defined.

(** The loop of [restart_proxies] over [mappings.items()]: the events
    up to the end or up to the exception, and the exception if any. *)
Fixpoint restart_items (items : list (key * Z))
  : list restart_event * option restart_exn :=
  match items with
  | [] => ([], None)
  | (mapping_key, port) :: items' =>
      match mapping_key with
      | [ip; protocol] =>
          let event :=
            match dict_get PROTOCOL_PORTS protocol with
            | Some internal_port => Restarted port ip internal_port
            | None => Skipped protocol ip port
            end in
          let rest := restart_items items' in
          (event :: rest.1, rest.2)
      | _ => ([], Some ValueError)
      end
  end.

(** [restart_proxies()] *)
Definition restart_proxies (f : file)
  : list restart_event * option restart_exn :=
  match load_mappings f with
  | Raise e => ([], Some (LoadFailed e))
  | Ok m => restart_items m
  end.

(** The threads that a run of [restart_proxies] has started. *)
Definition started (events : list restart_event) : list spawn :=
  omap (fun event => match event with
                     | Restarted port ip internal_port =>
                         Some (port, ip, internal_port)
                     | Skipped _ _ _ => None
                     end) events.

(** The mappings that a run of [restart_proxies] has warned about. *)
Definition skipped (events : list restart_event)
  : list (string * string * Z) :=
  omap (fun event => match event with
                     | Skipped protocol ip port => Some (protocol, ip, port)
                     | Restarted _ _ _ => None
                     end) events.

(** The started threads, each running [start_tcp_proxy], taken one at a
    time.  A thread that blocks stays blocked and the next one goes on
    from the state it left. *)
Definition run_threads (ss : list spawn) (w : world) : world :=
  fold_left (fun w s => world_of (start_tcp_proxy s.1.1 s.1.2 s.2 w)) ss w.

(** ** Set-up *)

(** Lines 146-152 of [SetupManager._validate_configuration]: a mapping
    file that is missing or has no bytes is written with the text of an
    empty JSON array.  [dir_writable] tells whether a new file can be
    created; a failing write raises and leaves the file as it was. *)
Definition init_mapping_file (dir_writable : bool) (f : file) : file :=
  match f with
  | NoFile => if dir_writable then Json (JArray []) else NoFile
  | EmptyFile => Json (JArray [])
  | other => other
  end.

(** ** Forwarding *)

(** What one call [source_socket.recv(4096)] gives: bytes, where no
    bytes means that the peer has closed, or an exception. *)
Inductive recv_result :=
| Received (data : string)
| RecvFails.

(** How [forward_data] ends: it returns, with both sockets closed by
    its [finally] clause, or it waits in [recv] for data that does not
    come.  [sent] holds the chunks that [sendall] has sent, in order. *)
Record forward_outcome := {
  sent : list string;
  returned : bool
}.

(** [forward_data(source_socket, destination_socket)].  [recvs] is what
    the calls of [recv] give, one after the other; [send_fails] is the
    number of the call of [sendall] that raises, if one does.  What the
    thread of the other direction does to the two sockets shows here as
    a [recv] or a [sendall] that fails. *)
Fixpoint forward_data (recvs : list recv_result) (send_fails : option nat)
  : forward_outcome :=
  match recvs with
  | [] => {| sent := []; returned := false |}
  | RecvFails :: _ => {| sent := []; returned := true |}
  | Received data :: recvs' =>
      if decide (data = "") then {| sent := []; returned := true |}
      else
        match send_fails with
        | Some O => {| sent := []; returned := true |}
        | _ =>
            let rest := forward_data recvs' (pred <$> send_fails) in
            {| sent := data :: sent rest; returned := returned rest |}
        end
  end.

(** The data chunks among the results of [recv]. *)
Definition received (recvs : list recv_result) : list string :=
  omap (fun r => match r with
                 | Received data => Some data
                 | RecvFails => None
                 end) recvs.

(** ** Hosts and the delimiter *)

Definition plain (s : string) : Prop := occurrences DELIMITER s = 0%nat.

(** The stores that [resolve] produces from an empty one when no host
    and no protocol contains the delimiter. *)
Inductive plain_reachable : file → Prop :=
| plain_reachable_empty f : load_mappings f = Ok [] → plain_reachable f
| plain_reachable_resolve f ip protocol :
    plain_reachable f → plain ip → plain protocol →
    plain_reachable (resolve ip protocol f).1.

(** The ports [START_PORT], [START_PORT + 1], ... handed out in turn. *)
Definition consecutive_ports (n : nat) : list Z :=
  (fun i : nat => START_PORT + Z.of_nat i) <$> seq 0 n.

(** ** Consistency of the registry *)

(** What the registry operations keep true: a registered thread exists
    and was started for the port it is registered under; a worker that
    accepts holds its port; no two workers accept on the same port. *)
Record world_inv (w : world) : Prop := {
  inv_registered :
    ∀ port t, active_proxies w !! port = Some t →
              ∃ wk, threads w !! t = Some wk ∧ local_port wk = port;
  inv_bound :
    ∀ t wk, threads w !! t = Some wk → state wk = Accepting →
            local_port wk ∈ unavailable w;
  inv_one_listener :
    ∀ t1 t2 wk1 wk2,
      threads w !! t1 = Some wk1 → threads w !! t2 = Some wk2 →
      state wk1 = Accepting → state wk2 = Accepting →
      local_port wk1 = local_port wk2 → t1 = t2
}.

(** Every key is a pair. *)
Definition all_pairs (m : mappings) : Prop :=
  Forall (fun k : key => length k = 2%nat) (keys m).

(** ** The history of a store *)

(** The calls of [resolve] that have returned a port, latest first,
    with the port each one returned, on a store that was empty at the
    start. *)
Inductive history : list (string * string * Z) → file → Prop :=
| history_empty f : load_mappings f = Ok [] → history [] f
| history_resolve log f ip protocol port f' :
    history log f →
    resolve ip protocol f = (f', Ok port) →
    history ((ip, protocol, port) :: log) f'.

(** ** Requests at the same time *)

(** Where one call of lines 160-172 of [index] stands.  The handler
    takes no lock; between two of its file operations another request
    thread may run. *)
Inductive caller :=
| Calling                             (* before load_mappings() *)
| Loaded (m : mappings)               (* mappings loaded, key not tested yet *)
| Writing (m : mappings) (port : Z)   (* in save_mappings, file opened for
                                         writing and so truncated *)
| Finished (r : result Z).            (* port known and saved, or exception *)

Global Instance caller_eq_dec : EqDecision caller.
Proof. solve_decision. Defined.

(** The next file operation of a caller: [load_mappings()]; the key
    test with, for a new key, the [open(MAPPING_FILE, 'w')] of
    [save_mappings]; the comprehension and [json.dump], written in one
    piece when the file is closed. *)
Definition step (ip protocol : string) (c : caller) (f : file)
  : caller * file :=
  match c with
  | Calling =>
      match load_mappings f with
      | Ok m => (Loaded m, f)
      | Raise e => (Finished (Raise e), f)
      end
  | Loaded m =>
      match allocate m (mapping_key ip protocol) with
      | (port, None) => (Finished (Ok port), f)
      | (port, Some m') =>
          match f with
          | Unopenable => (Finished (Raise OSError), f)
          | _ => (Writing m' port, EmptyFile)
          end
      end
  | Writing m' port =>
      match serialize_items m' [] with
      | Ok o => (Finished (Ok port), Json (JObject o))
      | Raise e => (Finished (Raise e), f)
      end
  | Finished r => (Finished r, f)
  end.

(** The callers, all resolving the same pair, and the mapping file. *)
Definition system := (list caller * file)%type.

(** Caller [i] does its next file operation. *)
Definition step_at (ip protocol : string) (i : nat) (s : system) : system :=
  match s.1 !! i with
  | Some c =>
      (<[i := (step ip protocol c s.2).1]> s.1, (step ip protocol c s.2).2)
  | None => s
  end.

(** A schedule names the caller that moves next. *)
Fixpoint run (ip protocol : string) (schedule : list nat) (s : system)
  : system :=
  match schedule with
  | [] => s
  | i :: schedule' => run ip protocol schedule' (step_at ip protocol i s)
  end.

Definition is_writing (c : caller) : bool :=
  match c with
  | Writing _ _ => true
  | _ => false
  end.

Definition is_finished (c : caller) : bool :=
  match c with
  | Finished _ => true
  | _ => false
  end.

(** No caller loads the mapping file while another caller has it open
    for writing. *)
Fixpoint loads_apart (ip protocol : string) (schedule : list nat)
    (s : system) : bool :=
  match schedule with
  | [] => true
  | i :: schedule' =>
      match s.1 !! i with
      | Some Calling => forallb (fun c => negb (is_writing c)) s.1
      | _ => true
      end
      && loads_apart ip protocol schedule' (step_at ip protocol i s)
  end.

(** How far a caller has come, and how often a schedule moves it. *)
Definition stage (c : caller) : nat :=
  match c with
  | Calling => 0
  | Loaded _ => 1
  | Writing _ _ => 2
  | Finished _ => 3
  end.

Definition moves (i : nat) (schedule : list nat) : nat :=
  length (filter (eq i) schedule).

(** What holds of callers that resolve one new pair on the mapping set
    [m]: a caller has loaded [m] or the set [m1] that holds the pair, it
    writes [m] with the pair added, or it has the port. *)
Definition caller_ok (m m1 m' : mappings) (port : Z) (c : caller) : Prop :=
  c = Calling ∨ c = Loaded m ∨ c = Loaded m1 ∨
  c = Writing m' port ∨ c = Finished (Ok port).

(** The mapping file is as at the start and nobody has got further than
    loading it, or it holds the mapping set with the pair added, or it
    is truncated by a caller that is writing. *)
Definition file_ok (f f1 : file) (m : mappings) (s : system) : Prop :=
  (s.2 = f ∧ Forall (fun c => c = Calling ∨ c = Loaded m) s.1) ∨
  s.2 = f1 ∨
  (s.2 = EmptyFile ∧ Exists (fun c => is_writing c = true) s.1).

(** * Properties *)

(** ** Splitting strings *)

Section split_facts.
Variable sep : ascii.

Lemma split_not_nil s : split sep s ≠ [].
Proof.
  destruct s as [|c s]; simpl; [done|].
  destruct (decide (c = sep)); [done|].
  by destruct (split sep s).
Qed.

Lemma split_length s : length (split sep s) = S (occurrences sep s).
Proof.
  induction s as [|c s IH]; simpl; [done|].
  destruct (decide (c = sep)); simpl; [by rewrite IH|].
  destruct (split sep s) eqn:E; simpl in *; [done|]. done.
Qed.

Lemma join_split s : join sep (split sep s) = s.
Proof.
  induction s as [|c s IH]; simpl; [done|].
  destruct (decide (c = sep)) as [->|Hne].
  - pose proof (split_not_nil s) as Hnil.
    destruct (split sep s) as [|p ps] eqn:E; [done|].
    simpl. simpl in IH. by rewrite IH.
  - destruct (split sep s) as [|p ps] eqn:E.
    + by destruct (split_not_nil s).
    + rewrite <- IH. by destruct ps.
Qed.

(** [split] is injective: the store never confuses two file keys. *)
Lemma split_inj s1 s2 : split sep s1 = split sep s2 → s1 = s2.
Proof.
  intros E. rewrite <- (join_split s1), <- (join_split s2). by rewrite E.
Qed.

Lemma occurrences_app s1 s2 :
  occurrences sep (s1 +:+ s2) = (occurrences sep s1 + occurrences sep s2)%nat.
Proof.
  induction s1 as [|c s1 IH]; simpl; [done|].
  destruct (decide (c = sep)); simpl; by rewrite IH.
Qed.

Lemma occurrences_joined a b :
  occurrences sep (a +:+ String sep b)
  = S (occurrences sep a + occurrences sep b).
Proof.
  rewrite occurrences_app. simpl.
  destruct (decide (sep = sep)); [lia|done].
Qed.

(** A separator-free prefix followed by the separator is the first
    part. *)
Lemma split_prefix a b :
  occurrences sep a = 0%nat →
  split sep (a +:+ String sep b) = a :: split sep b.
Proof.
  induction a as [|c a IH]; simpl.
  - intros _. destruct (decide (sep = sep)); done.
  - destruct (decide (c = sep)); [done|]. intros H.
    by rewrite (IH H).
Qed.

Lemma split_free a : occurrences sep a = 0%nat → split sep a = [a].
Proof.
  induction a as [|c a IH]; simpl; [done|].
  destruct (decide (c = sep)); [done|]. intros H. by rewrite (IH H).
Qed.

Lemma split_pair a b :
  occurrences sep a = 0%nat → occurrences sep b = 0%nat →
  split sep (a +:+ String sep b) = [a; b].
Proof. intros Ha Hb. by rewrite split_prefix, split_free. Qed.

(** The only string that splits into the pair [c; d] is the one
    written for that pair. *)
Lemma split_joined_pair a b c d :
  split sep (a +:+ String sep b) = [c; d] → a = c ∧ b = d.
Proof.
  intros E. pose proof (split_length (a +:+ String sep b)) as Hlen.
  rewrite E, occurrences_joined in Hlen. simpl in Hlen.
  assert (occurrences sep a = 0%nat) as Ha by lia.
  assert (occurrences sep b = 0%nat) as Hb by lia.
  rewrite (split_pair _ _ Ha Hb) in E. by simplify_eq.
Qed.

Lemma split_joined_length a b :
  (2 ≤ length (split sep (a +:+ String sep b)))%nat.
Proof. rewrite split_length, occurrences_joined. lia. Qed.
End split_facts.

(** ** Dictionaries *)

Section dict_facts.
Context {K V : Type} `{EqDecision K}.
Implicit Types (d : dict K V) (k : K) (v : V).

Lemma dict_get_None d k : dict_get d k = None ↔ k ∉ keys d.
Proof.
  induction d as [|[k' v'] d IH]; simpl.
  - split; [intros _; apply not_elem_of_nil|done].
  - rewrite not_elem_of_cons. destruct (decide (k' = k)) as [->|Hne].
    + split; [done|]. by intros [? _].
    + rewrite IH. split; [intros ?; split; [congruence|done]|by intros [_ ?]].
Qed.

Lemma dict_get_Some d k v : dict_get d k = Some v → (k, v) ∈ d.
Proof.
  induction d as [|[k' v'] d IH]; simpl; [done|].
  destruct (decide (k' = k)) as [->|Hne].
  - intros [= ->]. apply list_elem_of_here.
  - intros H'. apply list_elem_of_further. auto.
Qed.

Lemma dict_get_set d k v k' :
  dict_get (dict_set d k v) k'
  = if decide (k = k') then Some v else dict_get d k'.
Proof.
  induction d as [|[k0 v0] d IH]; simpl.
  - done.
  - destruct (decide (k0 = k)) as [->|Hne]; simpl.
    + destruct (decide (k = k')); done.
    + rewrite IH. destruct (decide (k0 = k')) as [->|]; [|done].
      by destruct (decide (k = k')) as [->|].
Qed.

(** Assigning to a key that is absent appends the item. *)
Lemma dict_set_fresh d k v :
  dict_get d k = None → dict_set d k v = d ++ [(k, v)].
Proof.
  induction d as [|[k' v'] d IH]; simpl; [done|].
  destruct (decide (k' = k)); [done|]. intros E. by rewrite IH.
Qed.

(** Assigning to a key that is present keeps the keys. *)
Lemma keys_dict_set_present d k v :
  k ∈ keys d → keys (dict_set d k v) = keys d.
Proof.
  induction d as [|[k' v'] d IH]; simpl.
  - by intros ?%elem_of_nil.
  - destruct (decide (k' = k)) as [->|Hne]; [done|].
    intros [?|Hin]%elem_of_cons; [done|].
    unfold keys in *. csimpl. f_equal. by apply IH.
Qed.

Lemma keys_dict_set_NoDup d k v :
  NoDup (keys d) → NoDup (keys (dict_set d k v)).
Proof.
  intros Hnd. destruct (dict_get d k) eqn:E.
  - rewrite keys_dict_set_present; [done|].
    destruct (decide (k ∈ keys d)) as [|Hn]; [done|].
    apply dict_get_None in Hn. congruence.
  - rewrite dict_set_fresh by done. unfold keys. rewrite fmap_app. simpl.
    apply NoDup_app. split; [done|]. split.
    + intros x Hx ->%list_elem_of_singleton. by apply dict_get_None in E.
    + apply NoDup_singleton.
Qed.

Lemma keys_dict_set_elem d k v x :
  x ∈ keys (dict_set d k v) → x = k ∨ x ∈ keys d.
Proof.
  destruct (dict_get d k) eqn:E.
  - rewrite keys_dict_set_present; [auto|].
    destruct (decide (k ∈ keys d)) as [|Hn]; [done|].
    apply dict_get_None in Hn. congruence.
  - rewrite dict_set_fresh by done. unfold keys. rewrite fmap_app. simpl.
    rewrite elem_of_app, list_elem_of_singleton. tauto.
Qed.

(** An assignment adds one value and drops at most one. *)
Lemma values_dict_set d k v : values (dict_set d k v) ⊆+ v :: values d.
Proof.
  induction d as [|[k' v'] d IH]; simpl; [done|].
  destruct (decide (k' = k)); unfold values in *; simpl.
  - apply submseteq_skip. by apply submseteq_cons.
  - etrans; [apply submseteq_skip, IH|]. by rewrite Permutation_swap.
Qed.

(** A list of items whose keys are distinct is its own dict. *)
Lemma fold_dict_set_distinct (items : list (K * V)) d :
  NoDup (keys (d ++ items)) →
  fold_left (fun a kv => dict_set a kv.1 kv.2) items d = d ++ items.
Proof.
  revert d. induction items as [|[k v] items IH]; intros d Hnd; simpl.
  - by rewrite app_nil_r.
  - rewrite dict_set_fresh.
    + rewrite IH; rewrite <- app_assoc; done.
    + apply dict_get_None. unfold keys in Hnd. rewrite fmap_app in Hnd.
      apply NoDup_app in Hnd as (_ & Hdis & _). intros Hin.
      apply (Hdis k Hin). simpl. apply list_elem_of_here.
Qed.

Lemma dict_of_items_distinct (items : list (K * V)) :
  NoDup (keys items) → dict_of_items items = items.
Proof. intros Hnd. unfold dict_of_items. by rewrite fold_dict_set_distinct. Qed.

(** Distinct keys: a key has one value. *)
Lemma keys_NoDup_functional d k v1 v2 :
  NoDup (keys d) → (k, v1) ∈ d → (k, v2) ∈ d → v1 = v2.
Proof.
  induction d as [|[k' v'] d IH]; [by intros _ ?%elem_of_nil|].
  unfold keys in *. csimpl. intros [Hk' Hnd]%NoDup_cons.
  assert (∀ v, (k', v) ∈ d → False) as Habs.
  { intros v Hin. apply Hk'. by apply (list_elem_of_fmap_2 fst) in Hin. }
  intros [[= -> ->]|H1]%elem_of_cons [[= ->]|H2]%elem_of_cons.
  - done.
  - by destruct (Habs v2).
  - subst. by destruct (Habs v1).
  - by apply IH.
Qed.
End dict_facts.

(** ** The maximum *)

Lemma fold_max_bounds (xs : list Z) (init : Z) :
  init ≤ fold_left Z.max xs init ∧ ∀ x, x ∈ xs → x ≤ fold_left Z.max xs init.
Proof.
  revert init. induction xs as [|y xs IH]; intros init; simpl.
  - split; [lia|]. by intros x ?%elem_of_nil.
  - destruct (IH (Z.max init y)) as [Hinit Hall]. split; [lia|].
    intros x [->|Hin]%elem_of_cons; [lia|auto].
Qed.

Lemma py_max_upper (xs : list Z) (x : Z) : x ∈ xs → x ≤ py_max xs.
Proof.
  destruct xs as [|y xs]; simpl; [by intros ?%elem_of_nil|].
  destruct (fold_max_bounds xs y) as [Hy Hall].
  intros [->|Hin]%elem_of_cons; auto.
Qed.

(** ** Saving and loading *)

Lemma serialize_key_ok (k : key) :
  writable_key k → ∃ s, serialize_key k = Ok s ∧ loads_writable s.
Proof.
  destruct k as [|k0 [|k1 k]]; unfold writable_key; simpl; [lia|lia|].
  intros _. eexists. split; [done|]. apply split_joined_length.
Qed.

(** On writable keys the comprehension of [save_mappings] succeeds; it
    yields a dict whose values come from the accumulator and the items,
    none of them twice. *)
Lemma serialize_items_ok (items : list (key * Z)) (acc : dict string Z) :
  Forall writable_key (keys items) →
  NoDup (keys acc) →
  Forall loads_writable (keys acc) →
  ∃ o, serialize_items items acc = Ok o ∧
       NoDup (keys o) ∧
       Forall loads_writable (keys o) ∧
       values o ⊆+ values acc ++ values items.
Proof.
  revert acc. induction items as [|[k v] items IH]; intros acc Hw Hnd Hl.
  - exists acc. simpl. rewrite app_nil_r. done.
  - unfold keys in Hw. csimpl in Hw. apply Forall_cons in Hw as [Hk Hw].
    destruct (serialize_key_ok k Hk) as (s & Es & Hs). simpl. rewrite Es.
    destruct (IH (dict_set acc s v)) as (o & Eo & Hnd' & Hl' & Hv).
    + done.
    + by apply keys_dict_set_NoDup.
    + apply Forall_forall. intros x [->|Hx]%keys_dict_set_elem; [done|].
      by eapply Forall_forall in Hl.
    + exists o. split_and!; [done..|].
      etrans; [apply Hv|]. unfold values. csimpl.
      etrans; [apply submseteq_skips_r, values_dict_set|].
      unfold values. simpl. by rewrite Permutation_middle.
Qed.

Lemma keys_loaded (o : list (string * Z)) :
  keys (map (fun kv => (split DELIMITER kv.1, kv.2)) o)
  = split DELIMITER <$> keys o.
Proof. unfold keys. by rewrite <- !list_fmap_compose. Qed.

Lemma values_loaded (o : list (string * Z)) :
  values (map (fun kv => (split DELIMITER kv.1, kv.2)) o) = values o.
Proof. unfold values. by rewrite <- !list_fmap_compose. Qed.

(** Loading an object whose keys are distinct splits every key and
    keeps the items in place. *)
Lemma load_object (o : list (string * Z)) :
  NoDup (keys o) →
  load_mappings (Json (JObject o))
  = Ok (map (fun kv => (split DELIMITER kv.1, kv.2)) o).
Proof.
  intros Hnd. simpl. rewrite (dict_of_items_distinct o Hnd).
  rewrite dict_of_items_distinct; [done|].
  rewrite keys_loaded. apply NoDup_fmap_2; [|done].
  intros s1 s2. apply split_inj.
Qed.

Lemma submseteq_NoDup {A} (l k : list A) : l ⊆+ k → NoDup k → NoDup l.
Proof.
  intros (l' & Hsub & Hperm)%submseteq_sublist_l Hnd.
  apply (sublist_NoDup l l'); [|done]. by rewrite Hperm.
Qed.

(** ** Resolving *)

Lemma load_ok_openable (f : file) (m : mappings) :
  load_mappings f = Ok m → f ≠ Unopenable.
Proof. by intros E ->. Qed.

Lemma save_openable (m : mappings) (f : file) (o : dict string Z) :
  f ≠ Unopenable → serialize_items m [] = Ok o →
  save_mappings m f = (Json (JObject o), Ok tt).
Proof. intros Hf E. destruct f; simpl; rewrite ?E; done. Qed.

(** The port of a new key is not in use. *)
Lemma next_port_fresh (m : mappings) : next_port m ∉ values m.
Proof.
  destruct m as [|kv m]; [apply not_elem_of_nil|].
  unfold next_port. intros Hin%py_max_upper. lia.
Qed.

(** A pair that is already stored: a lookup, the file is not touched. *)
Lemma resolve_known (f : file) (m : mappings) (ip protocol : string) (port : Z) :
  load_mappings f = Ok m →
  dict_get m (mapping_key ip protocol) = Some port →
  resolve ip protocol f = (f, Ok port).
Proof. intros Hl Hg. unfold resolve, allocate. by rewrite Hl, Hg. Qed.

(** A pair that is not stored yet: the next port is allocated and the
    mapping set with the new item is written. *)
Lemma resolve_new (f : file) (m : mappings) (ip protocol : string) :
  load_mappings f = Ok m →
  Forall writable_key (keys m) →
  dict_get m (mapping_key ip protocol) = None →
  ∃ o, resolve ip protocol f = (Json (JObject o), Ok (next_port m)) ∧
       serialize_items (m ++ [(mapping_key ip protocol, next_port m)]) []
       = Ok o ∧
       NoDup (keys o) ∧
       Forall loads_writable (keys o) ∧
       values o ⊆+ values m ++ [next_port m].
Proof.
  intros Hl Hw Hg. unfold resolve, allocate. rewrite Hl, Hg.
  rewrite dict_set_fresh by done.
  destruct (serialize_items_ok
              (m ++ [(mapping_key ip protocol, next_port m)]) [])
    as (o & Eo & Hnd & Hlw & Hv).
  - unfold keys. rewrite fmap_app. apply Forall_app. split; [done|].
    apply Forall_singleton. unfold writable_key. simpl. lia.
  - apply NoDup_nil_2.
  - apply Forall_nil_2.
  - exists o. rewrite (save_openable _ f o); [|by eapply load_ok_openable|done].
    split_and!; [done..|].
    unfold values in *. simpl in Hv. by rewrite fmap_app in Hv.
Qed.

Lemma store_inv_empty (f : file) : load_mappings f = Ok [] → store_inv f [].
Proof.
  intros E. split; [done|apply NoDup_nil_2|apply NoDup_nil_2|apply Forall_nil_2].
Qed.

Lemma store_inv_resolve (f : file) (m : mappings) (ip protocol : string) :
  store_inv f m → ∃ m', store_inv (resolve ip protocol f).1 m'.
Proof.
  intros [Hl Hk Hp Hw].
  destruct (dict_get m (mapping_key ip protocol)) as [port|] eqn:Hg.
  - exists m. by rewrite (resolve_known f m ip protocol port).
  - destruct (resolve_new f m ip protocol Hl Hw Hg)
      as (o & -> & _ & Hnd & Hlw & Hv). simpl.
    exists (map (fun kv => (split DELIMITER kv.1, kv.2)) o). split.
    + by apply load_object.
    + rewrite keys_loaded. apply NoDup_fmap_2; [|done].
      intros s1 s2. apply split_inj.
    + rewrite values_loaded. apply (submseteq_NoDup _ _ Hv).
      apply NoDup_app. split; [done|]. split; [|apply NoDup_singleton].
      intros x Hx ->%list_elem_of_singleton. by apply next_port_fresh in Hx.
    + rewrite keys_loaded. by apply Forall_fmap.
Qed.


(** The store written by the first allocation, read back. *)
Lemma load_first (ip protocol : string) (port : Z) :
  load_mappings
    (Json (JObject [(ip +:+ String DELIMITER protocol, port)]))
  = Ok [(split DELIMITER (ip +:+ String DELIMITER protocol), port)].
Proof. apply load_object. apply NoDup_singleton. Qed.

(** C1. Resolving a pair that is not in the mapping set allocates the
    starting port 10000 when the set is empty and the largest stored
    port plus one otherwise; from an empty store the first resolve
    returns 10000, and a following resolve of a different pair returns
    10001. *)
Theorem resolve_allocates_next_port
    (f : file) (m : mappings) (ip protocol ip2 protocol2 : string) :
  load_mappings f = Ok m →
  Forall writable_key (keys m) →
  dict_get m (mapping_key ip protocol) = None →
  (ip, protocol) ≠ (ip2, protocol2) →
  ∃ f1,
    resolve ip protocol f
    = (f1, Ok (if decide (m = []) then 10000 else py_max (values m) + 1)) ∧
    (m = [] → ∃ f2, resolve ip2 protocol2 f1 = (f2, Ok 10001)).
Proof.
  intros Hl Hw Hg Hne.
  destruct (resolve_new f m ip protocol Hl Hw Hg) as (o & Hr & Ho & _).
  exists (Json (JObject o)). split.
  - rewrite Hr. by destruct m.
  - intros ->. simpl in Ho. injection Ho as <-.
    set (s := ip +:+ String DELIMITER protocol).
    destruct (resolve_new (Json (JObject [(s, START_PORT)]))
                [(split DELIMITER s, START_PORT)] ip2 protocol2)
      as (o2 & Hr2 & _).
    + apply load_first.
    + apply Forall_singleton. apply split_joined_length.
    + simpl. case_decide as E; [|done]. subst s.
      apply split_joined_pair in E as [-> ->]. done.
    + exists (Json (JObject o2)). by rewrite Hr2.
Qed.

Lemma resolve_allocates_next_port_witness :
  (load_mappings NoFile = Ok [] ∧
   Forall writable_key (keys ([] : mappings)) ∧
   dict_get ([] : mappings) (mapping_key "10.0.0.1" "ssh") = None ∧
   ("10.0.0.1", "ssh") ≠ ("10.0.0.2", "ssh") ∧
   ∃ f1, resolve "10.0.0.1" "ssh" NoFile = (f1, Ok 10000) ∧
         ∃ f2, resolve "10.0.0.2" "ssh" f1 = (f2, Ok 10001)) ∧
  (let f := Json (JObject [("10.0.0.1|ssh", 10000); ("10.0.0.9|http", 10007)]) in
   let m := [(["10.0.0.1"; "ssh"], 10000); (["10.0.0.9"; "http"], 10007)] in
   load_mappings f = Ok m ∧
   ∃ f1, resolve "10.0.0.2" "ssh" f = (f1, Ok 10008)).
Proof.
  split.
  - assert (Forall writable_key (keys ([] : mappings))) as Hw
      by apply Forall_nil_2.
    assert (("10.0.0.1", "ssh") ≠ ("10.0.0.2", "ssh")) as Hne by (intros [=]).
    split; [reflexivity|]. split; [exact Hw|]. split; [reflexivity|].
    split; [exact Hne|].
    destruct (resolve_allocates_next_port NoFile [] "10.0.0.1" "ssh"
                "10.0.0.2" "ssh" eq_refl Hw eq_refl Hne) as (f1 & H1 & H2).
    exists f1. split; [exact H1|]. exact (H2 eq_refl).
  - intros f m. split; [reflexivity|].
    destruct (resolve_allocates_next_port f m "10.0.0.2" "ssh"
                "10.0.0.1" "ssh" eq_refl) as (f1 & H1 & _).
    + repeat constructor.
    + reflexivity.
    + intros [=].
    + exists f1. exact H1.
Defined.

Lemma reachable_inv (f : file) : reachable f → ∃ m, store_inv f m.
Proof.
  induction 1 as [f Hl|f ip protocol _ [m Hm]].
  - exists []. by apply store_inv_empty.
  - by apply (store_inv_resolve f m).
Qed.

(** Ports are never shared.  In every store that resolve operations
    produce from an empty store, the mapping set loads, no two of its
    records carry the same external port, and no two of its records
    carry the same key. *)
Lemma reachable_ports_unique (f : file) :
  reachable f →
  ∃ m, load_mappings f = Ok m ∧
       NoDup (values m) ∧
       NoDup (keys m) ∧
       ∀ ip protocol port1 port2,
         (mapping_key ip protocol, port1) ∈ m →
         (mapping_key ip protocol, port2) ∈ m → port1 = port2.
Proof.
  intros [m [Hl Hk Hp _]]%reachable_inv. exists m. split_and!; [done..|].
  intros ip protocol port1 port2 H1 H2.
  by apply (keys_NoDup_functional m (mapping_key ip protocol)).
Qed.

(** C4. The invariant fails for a host that contains the delimiter.
    The pair (a|b, ssh) is resolved three times on an empty store: the
    calls return the ports 10000, 10001 and 10002, and the store that
    they leave holds no record for the pair. *)
Theorem delimited_pair_three_ports :
  let f1 := (resolve "a|b" "ssh" NoFile).1 in
  let f2 := (resolve "a|b" "ssh" f1).1 in
  let f3 := (resolve "a|b" "ssh" f2).1 in
  history [("a|b", "ssh", 10002); ("a|b", "ssh", 10001);
           ("a|b", "ssh", 10000)] f3 ∧
  reachable f3 ∧
  load_mappings f3 = Ok [(["a"; "b"], 10001); (["a"; "b"; "ssh"], 10002)] ∧
  (∀ m, load_mappings f3 = Ok m →
        dict_get m (mapping_key "a|b" "ssh") = None).
Proof.
  intros f1 f2 f3. split_and!.
  - apply (history_resolve _ f2); [|reflexivity].
    apply (history_resolve _ f1); [|reflexivity].
    apply (history_resolve _ NoFile); [|reflexivity].
    by apply history_empty.
  - do 3 apply reachable_resolve. by apply reachable_empty.
  - reflexivity.
  - by intros m [= <-].
Qed.

(** ** Hosts that contain the delimiter *)

(** C2. The same request twice, on an empty store: the second call
    does not find the pair that the first one stored.  It returns
    another port, and the mapping set grows from one record to two. *)
Theorem resolve_twice_delimited_host :
  let f1 := (index delimited_request NoFile).1 in
  let f2 := (index delimited_request f1).1 in
  (index delimited_request NoFile).2
  = Ok (Redirect "ssh://localhost:10000", Some (10000, "a|b", 22)) ∧
  (index delimited_request f1).2
  = Ok (Redirect "ssh://localhost:10001", Some (10001, "a|b", 22)) ∧
  load_mappings f1 = Ok [(["a"; "b"; "ssh"], 10000)] ∧
  load_mappings f2 = Ok [(["a"; "b"], 10000); (["a"; "b"; "ssh"], 10001)].
Proof. repeat split; reflexivity. Qed.

(** C3. Saving the mapping set with the one triple (a|b, ssh, 10000)
    and loading it again gives a set without that triple: the key comes
    back as a tuple of three strings. *)
Theorem roundtrip_delimited_host :
  let m : mappings := [(mapping_key "a|b" "ssh", 10000)] in
  save_mappings m NoFile = (Json (JObject [("a|b|ssh", 10000)]), Ok tt) ∧
  load_mappings (save_mappings m NoFile).1
  = Ok [(["a"; "b"; "ssh"], 10000)] ∧
  load_mappings (save_mappings m NoFile).1 ≠ Ok m.
Proof. repeat split; try reflexivity. intros [=]. Qed.

(** ** Hosts without the delimiter *)

Lemma plain_key_serialize (k : key) :
  plain_key k →
  ∃ s, serialize_key k = Ok s ∧ split DELIMITER s = k.
Proof.
  intros (ip & protocol & -> & Hip & Hp). eexists. split; [done|].
  by apply split_pair.
Qed.

(** On plain keys the comprehension of [save_mappings] writes one member
    per item, in order; read back, the members are the items. *)
Lemma serialize_items_plain (m : mappings) (acc : dict string Z) :
  Forall plain_key (keys m) →
  NoDup (((split DELIMITER <$> keys acc) ++ keys m)) →
  ∃ o, serialize_items m acc = Ok (acc ++ o) ∧
       map (fun kv => (split DELIMITER kv.1, kv.2)) o = m.
Proof.
  revert acc. induction m as [|[k v] m IH]; intros acc Hp Hnd.
  - exists []. by rewrite app_nil_r.
  - unfold keys in Hp. csimpl in Hp. apply Forall_cons in Hp as [Hk Hp].
    destruct (plain_key_serialize k Hk) as (s & Es & Hs). simpl. rewrite Es.
    assert (dict_get acc s = None) as Hfresh.
    { apply dict_get_None. intros Hin.
      apply NoDup_app in Hnd as (_ & Hdis & _).
      apply (Hdis k); [|unfold keys; csimpl; apply list_elem_of_here].
      rewrite <- Hs. by apply list_elem_of_fmap_2. }
    rewrite dict_set_fresh by done.
    destruct (IH (acc ++ [(s, v)])) as (o & Eo & Ho); [done| |].
    + unfold keys in *. rewrite !fmap_app. csimpl. rewrite Hs.
      rewrite <- app_assoc. done.
    + exists ((s, v) :: o). rewrite Eo, <- app_assoc. split; [done|].
      csimpl. by rewrite Hs, Ho.
Qed.

(** Persist then load is the identity on mapping sets whose keys are
    distinct plain pairs. *)
Lemma roundtrip_plain (m : mappings) (f : file) :
  f ≠ Unopenable →
  NoDup (keys m) →
  Forall plain_key (keys m) →
  load_mappings (save_mappings m f).1 = Ok m.
Proof.
  intros Hf Hnd Hp.
  destruct (serialize_items_plain m [] Hp) as (o & Eo & Ho); [done|].
  rewrite (save_openable m f o Hf Eo). simpl fst.
  rewrite load_object; [by rewrite Ho|].
  apply (NoDup_fmap_1 (split DELIMITER)). by rewrite <- keys_loaded, Ho.
Qed.

(** The item written last is in the file, whatever it replaced. *)
Lemma serialize_items_last (items : list (key * Z)) (k : key) (v : Z)
    (acc o : dict string Z) (s : string) :
  serialize_items (items ++ [(k, v)]) acc = Ok o →
  serialize_key k = Ok s →
  dict_get o s = Some v.
Proof.
  revert acc. induction items as [|[k' v'] items IH]; intros acc; simpl.
  - intros Ho Es. rewrite Es in Ho. injection Ho as <-.
    rewrite dict_get_set. by case_decide.
  - destruct (serialize_key k'); [apply IH|done].
Qed.

Lemma dict_get_loaded (o : list (string * Z)) (s : string) :
  dict_get (map (fun kv => (split DELIMITER kv.1, kv.2)) o) (split DELIMITER s)
  = dict_get o s.
Proof.
  induction o as [|[s' v] o IH]; simpl; [done|].
  rewrite IH.
  destruct (decide (s' = s)) as [->|Hne]; [by rewrite decide_True|].
  rewrite decide_False; [done|]. by intros ?%split_inj.
Qed.

(** For a host and a protocol without the delimiter, resolving twice
    gives the same port, and the second call leaves the store as it
    is. *)
Lemma resolve_idempotent_plain (f : file) (m : mappings) (ip protocol : string) :
  load_mappings f = Ok m →
  Forall writable_key (keys m) →
  occurrences DELIMITER ip = 0%nat →
  occurrences DELIMITER protocol = 0%nat →
  ∃ f1 port, resolve ip protocol f = (f1, Ok port) ∧
             resolve ip protocol f1 = (f1, Ok port).
Proof.
  intros Hl Hw Hip Hp.
  destruct (dict_get m (mapping_key ip protocol)) as [port|] eqn:Hg.
  - exists f, port. by rewrite (resolve_known f m ip protocol port).
  - destruct (resolve_new f m ip protocol Hl Hw Hg)
      as (o & Hr & Ho & Hnd & _).
    exists (Json (JObject o)), (next_port m). split; [done|].
    eapply resolve_known; [by apply load_object|].
    unfold mapping_key. rewrite <- (split_pair DELIMITER ip protocol Hip Hp).
    rewrite dict_get_loaded. by eapply serialize_items_last.
Qed.

(** ** Storage that does not hold a mapping object *)

(** A missing file, an empty file and text that is not JSON all load as
    the empty mapping set. *)
Lemma load_nothing (f : file) :
  f = NoFile ∨ f = EmptyFile ∨ f = InvalidJson → load_mappings f = Ok [].
Proof. by intros [->|[->| ->]]. Qed.

(** C8. Two storage states on which [load_mappings] raises instead of
    returning the empty mapping set: a file that cannot be opened, and
    the empty JSON array that the set-up command writes into a new
    mapping file. *)
Theorem load_raises :
  load_mappings Unopenable = Raise OSError ∧
  load_mappings (Json (JArray [])) = Raise AttributeError.
Proof. split; reflexivity. Qed.

(** ** GET and POST *)

(** A request for a supported protocol and a pair that is not stored
    allocates and stores the next port, starts the proxy thread for it
    and redirects to it. *)
Lemma index_new_pair (r : request) (f : file) (m : mappings)
    (ip protocol : string) (internal_port : Z) :
  method r = GET →
  dict_get (args r) "protocol" = Some protocol →
  dict_get (args r) "ip" = Some ip →
  protocol ≠ "" → ip ≠ "" →
  dict_get PROTOCOL_PORTS protocol = Some internal_port →
  load_mappings f = Ok m →
  Forall writable_key (keys m) →
  dict_get m (mapping_key ip protocol) = None →
  ∃ o, index r f
       = (Json (JObject o),
          Ok (Redirect (protocol +:+ "://" +:+ hd "" (split ":" (host r))
                          +:+ ":" +:+ pretty (next_port m)),
              Some (next_port m, ip, internal_port))) ∧
       dict_get o (ip +:+ String DELIMITER protocol) = Some (next_port m).
Proof.
  intros Hm Hp Hip Hpne Hipne Hpp Hl Hw Hg.
  destruct (resolve_new f m ip protocol Hl Hw Hg) as (o & Hr & Ho & _).
  exists o. split.
  - unfold index, truthy. rewrite Hm, Hp, Hip. cbv beta iota zeta.
    rewrite !bool_decide_eq_false_2 by done. cbv beta iota zeta delta [negb andb].
    by rewrite Hpp, Hr.
  - by eapply serialize_items_last.
Qed.

(** C10. A GET request and a POST request that carry the same
    parameters, the one as query arguments and the other as form
    fields, have the same effect on the same store: the same store
    afterwards, the same proxy thread started, the same redirect.  When
    both parameters are present and not empty the whole response is the
    same.  A GET request on an empty store stores a mapping and starts
    a proxy thread. *)
Theorem get_post_same_effect (rg rp : request) (f : file) :
  method rg = GET → method rp = POST →
  args rg = form rp → host rg = host rp →
  effect (index rg f) = effect (index rp f) ∧
  (truthy (dict_get (args rg) "protocol") && truthy (dict_get (args rg) "ip")
   → index rg f = index rp f) ∧
  index {| method := GET;
           args := [("ip", "10.0.0.1"); ("protocol", "ssh")];
           form := [];
           host := "localhost:5000" |} NoFile
  = (Json (JObject [("10.0.0.1|ssh", 10000)]),
     Ok (Redirect "ssh://localhost:10000", Some (10000, "10.0.0.1", 22))).
Proof.
  intros Hg Hp Hargs Hhost. split_and!; [| |reflexivity].
  - unfold index, render_form. rewrite Hg, Hp, Hargs, Hhost.
    destruct (dict_get (form rp) "protocol") as [protocol|],
      (dict_get (form rp) "ip") as [ip|]; try done.
    destruct (truthy (Some protocol) && truthy (Some ip)); [|done].
    destruct (dict_get PROTOCOL_PORTS protocol); [|done].
    by destruct (resolve ip protocol f) as [f' [port|e]].
  - unfold index, render_form. rewrite Hg, Hp, Hargs, Hhost.
    destruct (dict_get (form rp) "protocol") as [protocol|],
      (dict_get (form rp) "ip") as [ip|];
      try (simpl; rewrite ?andb_false_r; by intros []).
    by intros ->%Is_true_true.
Qed.

Lemma get_post_same_effect_witness :
  let rg := {| method := GET;
               args := [("ip", "10.0.0.1"); ("protocol", "ssh")];
               form := []; host := "localhost:5000" |} in
  let rp := {| method := POST; args := [];
               form := [("ip", "10.0.0.1"); ("protocol", "ssh")];
               host := "localhost:5000" |} in
  method rg = GET ∧ method rp = POST ∧ args rg = form rp ∧ host rg = host rp ∧
  effect (index rg NoFile) = effect (index rp NoFile).
Proof.
  intros rg rp. do 4 (split; [reflexivity|]).
  exact (proj1 (get_post_same_effect rg rp NoFile
                  eq_refl eq_refl eq_refl eq_refl)).
Defined.

(** ** The proxy registry *)

(** The registry operations never change a thread that exists. *)
Lemma stop_proxy_threads (port : Z) (w : world) :
  threads (world_of (stop_proxy port w)) = threads w ∧
  unavailable (world_of (stop_proxy port w)) = unavailable w.
Proof.
  unfold stop_proxy, join_thread.
  destruct (active_proxies w !! port) as [t|]; simpl; [|done].
  destruct (threads w !! t) as [wk|]; [destruct (state wk)|]; done.
Qed.

(** C7. For a port whose listener is running, [stop_proxy] removes the
    registry entry and then waits in [join] without end: the worker is
    still blocked in accept and its socket is still bound, because
    nothing has closed it. *)
Theorem stop_proxy_blocks (w : world) (port : Z) (t : nat) (wk : worker) :
  active_proxies w !! port = Some t →
  threads w !! t = Some wk →
  state wk = Accepting →
  stop_proxy port w
  = Blocks {| active_proxies := delete port (active_proxies w);
              threads := threads w;
              unavailable := unavailable w |} ∧
  threads (world_of (stop_proxy port w)) !! t = Some wk ∧
  unavailable (world_of (stop_proxy port w)) = unavailable w.
Proof.
  intros Hreg Ht Hst. unfold stop_proxy, join_thread. rewrite Hreg. simpl.
  by rewrite Ht, Hst.
Qed.

Lemma stop_proxy_blocks_witness :
  running listening_world 10000 "10.0.0.1" 22 ∧
  10000 ∈ unavailable listening_world ∧
  (∃ w, stop_proxy 10000 listening_world = Blocks w ∧
        10000 ∈ unavailable w).
Proof.
  assert (active_proxies listening_world !! 10000 = Some 0%nat) as Hreg
    by (vm_compute; reflexivity).
  assert (threads listening_world !! 0%nat
          = Some {| local_port := 10000; remote_ip := "10.0.0.1";
                    remote_port := 22; state := Accepting |}) as Ht
    by (vm_compute; reflexivity).
  assert (10000 ∈ unavailable listening_world) as Hin
    by (eapply (bool_decide_unpack _); vm_compute; exact I).
  split; [by exists 0%nat|]. split; [exact Hin|].
  destruct (stop_proxy_blocks listening_world 10000 0 _ Hreg Ht eq_refl)
    as (Hstop & _ & Hun).
  eexists. split; [exact Hstop|]. exact Hin.
Defined.

(** C5, as the specification states it, fails: a listener runs on port
    10000 for the target 10.0.0.1:22, and starting the proxy again for
    the same port and the same target does not leave the registry as it
    was; the entry of the port is removed. *)
Lemma start_same_target_not_noop :
  running listening_world 10000 "10.0.0.1" 22 ∧
  start_tcp_proxy 10000 "10.0.0.1" 22 listening_world
  ≠ Returns listening_world ∧
  active_proxies
    (world_of (start_tcp_proxy 10000 "10.0.0.1" 22 listening_world))
    !! 10000 = None.
Proof.
  split; [exists 0%nat; split; vm_compute; reflexivity|].
  split; [|vm_compute; reflexivity].
  intros E. apply (f_equal (fun o => bool_decide (o = Returns listening_world)))
    in E.
  vm_compute in E. discriminate E.
Qed.

(** C5, amended. [start_tcp_proxy] does not look at the target.  For a
    port that has a registry entry the call is [stop_proxy], followed,
    when that returns, by a start on the port that is then not
    registered, whatever the target.  [stop_proxy] removes the entry,
    so the port is never left registered to the old thread.  While the
    old thread is accepting, which is the case of a running listener
    with an identical target too, the call gets no further than
    [stop_proxy]: it is not a no-op, the port is not registered any
    more.  The call returns only when the old thread has ended, and then
    the port is registered to a new worker thread that was started for
    the requested target. *)
Theorem start_replaces_registered
    (w : world) (port : Z) (ip : string) (rport : Z) (t : nat) :
  registry_wf w →
  active_proxies w !! port = Some t →
  start_tcp_proxy port ip rport w
  = match stop_proxy port w with
    | Returns w1 => start_tcp_proxy port ip rport w1
    | other => other
    end ∧
  active_proxies (world_of (stop_proxy port w)) !! port = None ∧
  active_proxies (world_of (start_tcp_proxy port ip rport w)) !! port
  ≠ Some t ∧
  (∀ wk, threads w !! t = Some wk → state wk = Accepting →
         start_tcp_proxy port ip rport w = stop_proxy port w ∧
         start_tcp_proxy port ip rport w ≠ Returns w ∧
         active_proxies (world_of (start_tcp_proxy port ip rport w)) !! port
         = None) ∧
  ∀ w', start_tcp_proxy port ip rport w = Returns w' →
        (∀ wk, threads w !! t = Some wk → state wk = Exited) ∧
        active_proxies w' !! port = Some (length (threads w)) ∧
        ∃ st, threads w' !! length (threads w)
              = Some {| local_port := port; remote_ip := ip;
                        remote_port := rport; state := st |}.
Proof.
  intros Hwf Hreg.
  assert (t < length (threads w))%nat as Hlt
    by apply (map_Forall_lookup_1 _ _ _ _ Hwf Hreg).
  set (w0 := {| active_proxies := delete port (active_proxies w);
                threads := threads w; unavailable := unavailable w |}).
  assert (stop_proxy port w = join_thread t w0) as Hstop
    by (unfold stop_proxy; by rewrite Hreg).
  assert (start_tcp_proxy port ip rport w
          = match stop_proxy port w with
            | Returns w1 =>
                Returns
                  {| active_proxies :=
                       <[port := length (threads w1)]>
                         (active_proxies (proxy_worker port ip rport w1));
                     threads := threads (proxy_worker port ip rport w1);
                     unavailable := unavailable (proxy_worker port ip rport w1) |}
            | other => other
            end) as Hstart.
  { unfold start_tcp_proxy. rewrite decide_True by (by rewrite Hreg).
    by destruct (stop_proxy port w). }
  assert (start_tcp_proxy port ip rport w0
          = Returns
              {| active_proxies :=
                   <[port := length (threads w0)]>
                     (active_proxies (proxy_worker port ip rport w0));
                 threads := threads (proxy_worker port ip rport w0);
                 unavailable := unavailable (proxy_worker port ip rport w0) |})
    as Hfresh.
  { unfold start_tcp_proxy. rewrite decide_False; [done|].
    simpl. rewrite lookup_delete_eq. by intros [? ?]. }
  assert (∃ st,
    active_proxies (world_of (start_tcp_proxy port ip rport w0)) !! port
    = Some (length (threads w)) ∧
    threads (world_of (start_tcp_proxy port ip rport w0))
      !! length (threads w)
    = Some {| local_port := port; remote_ip := ip;
              remote_port := rport; state := st |}) as (st & Hnewreg & Hnewth).
  { rewrite Hfresh. simpl. rewrite lookup_insert_eq.
    unfold proxy_worker. case_decide; simpl;
      eexists; (split; [done|]); by rewrite list_lookup_middle. }
  rewrite Hstart, Hstop. unfold join_thread. fold w0.
  change (threads w0) with (threads w).
  destruct (threads w !! t) as [wk|] eqn:Ht; [destruct (state wk) eqn:Hst|].
  - (* the old thread is accepting *)
    split; [done|]. simpl. rewrite lookup_delete_eq.
    split; [done|]. split; [done|]. split.
    + intros wk' _ _. split_and!; [done| |done]. intros [=].
    + by intros w' [=].
  - (* the old thread has ended *)
    rewrite <- Hfresh. split; [done|]. simpl. rewrite lookup_delete_eq.
    split; [done|]. rewrite Hnewreg. split; [intros [=]; lia|]. split.
    + intros wk' [= <-] Hacc. congruence.
    + intros w' Hw'. rewrite Hw' in Hnewreg, Hnewth.
      split; [|split; [done|by exists st]].
      intros wk' [= <-]. done.
  - (* no such thread *)
    rewrite <- Hfresh. split; [done|]. simpl. rewrite lookup_delete_eq.
    split; [done|]. rewrite Hnewreg. split; [intros [=]; lia|]. split.
    + by intros wk' [=].
    + intros w' Hw'. rewrite Hw' in Hnewreg, Hnewth.
      split; [|split; [done|by exists st]].
      by intros wk' [=].
Qed.

(** C6, as the specification states it, fails: port 10000 is taken, the
    bind of the worker fails, and [start_tcp_proxy] returns normally
    with the port registered to the thread that has ended. *)
Lemma bind_failure_stays_registered :
  10000 ∈ unavailable busy_world ∧
  ∃ w', start_tcp_proxy 10000 "10.0.0.1" 22 busy_world = Returns w' ∧
        active_proxies w' !! 10000 = Some 0%nat ∧
        threads w' !! 0%nat
        = Some {| local_port := 10000; remote_ip := "10.0.0.1";
                  remote_port := 22; state := Exited |}.
Proof.
  split; [eapply (bool_decide_unpack _); vm_compute; exact I|].
  eexists. split; [reflexivity|]. split; vm_compute; reflexivity.
Qed.

(** C6, amended. When the bind of the listening socket fails, the
    worker thread catches the failure and ends; [start_tcp_proxy]
    returns normally, and the registry holds an entry for the port that
    names the ended thread.  (The port is free in the registry, or
    registered to a thread that has ended.) *)
Theorem bind_failure_registered
    (w : world) (port : Z) (ip : string) (rport : Z) :
  port ∈ unavailable w →
  (∀ t wk, active_proxies w !! port = Some t →
           threads w !! t = Some wk → state wk = Exited) →
  ∃ w', start_tcp_proxy port ip rport w = Returns w' ∧
        active_proxies w' !! port = Some (length (threads w)) ∧
        threads w' !! length (threads w)
        = Some {| local_port := port; remote_ip := ip;
                  remote_port := rport; state := Exited |} ∧
        unavailable w' = unavailable w.
Proof.
  intros Hbusy Hended. unfold start_tcp_proxy.
  assert (∃ w1, (if decide (is_Some (active_proxies w !! port))
                 then stop_proxy port w else Returns w) = Returns w1 ∧
                threads w1 = threads w ∧ unavailable w1 = unavailable w)
    as (w1 & -> & Hth & Hun).
  { case_decide as Hreg; [|by exists w].
    destruct Hreg as [t Hreg]. unfold stop_proxy, join_thread.
    rewrite Hreg. simpl.
    destruct (threads w !! t) as [wk|] eqn:Ht; [|by eexists].
    rewrite (Hended t wk Hreg Ht). by eexists. }
  eexists. split; [done|]. simpl. rewrite lookup_insert_eq, Hth.
  unfold proxy_worker. rewrite decide_True by (by rewrite Hun). simpl.
  rewrite Hth, list_lookup_middle by done. by rewrite Hun.
Qed.

Lemma start_replaces_registered_witness :
  registry_wf listening_world ∧
  active_proxies listening_world !! 10000 = Some 0%nat ∧
  running listening_world 10000 "10.0.0.1" 22 ∧
  start_tcp_proxy 10000 "10.0.0.1" 22 listening_world
  = stop_proxy 10000 listening_world ∧
  start_tcp_proxy 10000 "10.0.0.1" 22 listening_world
  ≠ Returns listening_world ∧
  active_proxies
    (world_of (start_tcp_proxy 10000 "10.0.0.1" 22 listening_world))
    !! 10000 = None.
Proof.
  assert (registry_wf listening_world) as Hwf
    by (eapply (bool_decide_unpack _); vm_compute; exact I).
  assert (active_proxies listening_world !! 10000 = Some 0%nat) as Hreg
    by (vm_compute; reflexivity).
  assert (threads listening_world !! 0%nat
          = Some {| local_port := 10000; remote_ip := "10.0.0.1";
                    remote_port := 22; state := Accepting |}) as Ht
    by (vm_compute; reflexivity).
  split; [exact Hwf|]. split; [exact Hreg|].
  split; [exists 0%nat; split; [exact Hreg|exact Ht]|].
  destruct (start_replaces_registered listening_world 10000 "10.0.0.1" 22 0
              Hwf Hreg) as (_ & _ & _ & Hrunning & _).
  exact (Hrunning _ Ht eq_refl).
Defined.

Lemma bind_failure_registered_witness :
  10000 ∈ unavailable busy_world ∧
  ∃ w', start_tcp_proxy 10000 "10.0.0.1" 22 busy_world = Returns w' ∧
        active_proxies w' !! 10000 = Some 0%nat.
Proof.
  assert (10000 ∈ unavailable busy_world) as Hbusy
    by (eapply (bool_decide_unpack _); vm_compute; exact I).
  split; [exact Hbusy|].
  destruct (bind_failure_registered busy_world 10000 "10.0.0.1" 22 Hbusy)
    as (w' & Hs & Hreg & _).
  - intros t wk Hreg. vm_compute in Hreg. discriminate Hreg.
  - exists w'. split; [exact Hs|exact Hreg].
Defined.

(** * Further properties of the server *)

(** ** The store on plain hosts *)

Lemma plain_key_pair (ip protocol : string) :
  plain ip → plain protocol → plain_key (mapping_key ip protocol).
Proof. intros Hip Hp. by exists ip, protocol. Qed.

(** A new plain pair on a plain mapping set: the next port, and the
    set with one record more. *)
Lemma resolve_new_plain
    (f : file) (m : mappings) (ip protocol : string) :
  load_mappings f = Ok m →
  NoDup (keys m) →
  Forall plain_key (keys m) →
  plain ip → plain protocol →
  dict_get m (mapping_key ip protocol) = None →
  (resolve ip protocol f).2 = Ok (next_port m) ∧
  load_mappings (resolve ip protocol f).1
  = Ok (m ++ [(mapping_key ip protocol, next_port m)]).
Proof.
  intros Hl Hnd Hpl Hip Hp Hg.
  set (m' := m ++ [(mapping_key ip protocol, next_port m)]).
  assert (NoDup (keys m')) as Hnd'.
  { unfold m', keys. rewrite fmap_app. apply NoDup_app. split; [done|].
    split; [|apply NoDup_singleton].
    intros k Hk ->%list_elem_of_singleton. by apply dict_get_None in Hg. }
  assert (Forall plain_key (keys m')) as Hpl'.
  { unfold m', keys. rewrite fmap_app. apply Forall_app. split; [done|].
    apply Forall_singleton. by apply plain_key_pair. }
  pose proof (roundtrip_plain m' f (load_ok_openable f m Hl) Hnd' Hpl') as Hrt.
  destruct (serialize_items_plain m' [] Hpl') as (o & Eo & _); [exact Hnd'|].
  simpl in Eo. rewrite (save_openable m' f o) in Hrt;
    [|by eapply load_ok_openable|done].
  unfold resolve, allocate. rewrite Hl, Hg, dict_set_fresh by done.
  fold m'. rewrite (save_openable m' f o); [|by eapply load_ok_openable|done].
  done.
Qed.

(** X1. On a mapping set of distinct plain pairs, resolving a plain pair
    that is not stored returns the next port and appends exactly one
    record: every record that was stored is read back unchanged and in
    place. *)
Theorem resolve_new_plain_appends
    (f : file) (m : mappings) (ip protocol : string) :
  load_mappings f = Ok m →
  NoDup (keys m) →
  Forall plain_key (keys m) →
  plain ip → plain protocol →
  dict_get m (mapping_key ip protocol) = None →
  (resolve ip protocol f).2 = Ok (next_port m) ∧
  load_mappings (resolve ip protocol f).1
  = Ok (m ++ [(mapping_key ip protocol, next_port m)]).
Proof. apply resolve_new_plain. Qed.

Lemma resolve_new_plain_appends_witness :
  let f := Json (JObject [("10.0.0.1|ssh", 10000)]) in
  let m : mappings := [(mapping_key "10.0.0.1" "ssh", 10000)] in
  load_mappings f = Ok m ∧
  (resolve "10.0.0.2" "http" f).2 = Ok 10001 ∧
  load_mappings (resolve "10.0.0.2" "http" f).1
  = Ok (m ++ [(mapping_key "10.0.0.2" "http", 10001)]).
Proof.
  intros f m. split; [reflexivity|].
  apply (resolve_new_plain_appends f m "10.0.0.2" "http").
  - reflexivity.
  - apply NoDup_singleton.
  - apply Forall_singleton. by apply plain_key_pair.
  - reflexivity.
  - reflexivity.
  - reflexivity.
Defined.

(** The maximum of a non-empty list is one of its elements. *)
Lemma fold_max_elem (xs : list Z) (init : Z) :
  fold_left Z.max xs init ∈ init :: xs.
Proof.
  revert init. induction xs as [|y xs IH]; intros init; simpl.
  - apply list_elem_of_here.
  - destruct (proj1 (elem_of_cons _ _ _) (IH (Z.max init y))) as [E|Hin].
    + rewrite E. destruct (Z.max_spec init y) as [[_ ->]|[_ ->]].
      * apply list_elem_of_further, list_elem_of_here.
      * apply list_elem_of_here.
    + by do 2 apply list_elem_of_further.
Qed.

Lemma py_max_is (xs : list Z) (x : Z) :
  x ∈ xs → (∀ y, y ∈ xs → y ≤ x) → py_max xs = x.
Proof.
  intros Hin Hall. pose proof (py_max_upper xs x Hin) as Hle.
  destruct xs as [|y xs]; [by apply elem_of_nil in Hin|].
  pose proof (Hall _ (fold_max_elem xs y)) as Hge. simpl in *. lia.
Qed.

Lemma consecutive_ports_S (n : nat) :
  consecutive_ports (S n) = consecutive_ports n ++ [START_PORT + Z.of_nat n].
Proof. unfold consecutive_ports. by rewrite seq_S, fmap_app. Qed.

Lemma consecutive_ports_elem (n : nat) (p : Z) :
  p ∈ consecutive_ports n ↔ START_PORT ≤ p < START_PORT + Z.of_nat n.
Proof.
  unfold consecutive_ports. rewrite list_elem_of_fmap. split.
  - intros (i & -> & Hi%elem_of_seq). lia.
  - intros Hp. exists (Z.to_nat (p - START_PORT)). split; [lia|].
    apply elem_of_seq. lia.
Qed.

(** The port after [n] consecutive ones. *)
Lemma next_port_consecutive (m : mappings) :
  values m = consecutive_ports (length m) →
  next_port m = START_PORT + Z.of_nat (length m).
Proof.
  intros Hv. destruct m as [|kv m]; [done|].
  unfold next_port. rewrite Hv.
  rewrite (py_max_is _ (START_PORT + Z.of_nat (length m))).
  - simpl length. lia.
  - apply consecutive_ports_elem. simpl length. lia.
  - intros y Hy%consecutive_ports_elem. simpl length in Hy. lia.
Qed.

(** What holds of a store that only plain pairs were resolved on. *)
Lemma plain_reachable_inv (f : file) :
  plain_reachable f →
  ∃ m, load_mappings f = Ok m ∧ NoDup (keys m) ∧
       Forall plain_key (keys m) ∧
       values m = consecutive_ports (length m).
Proof.
  induction 1 as [f Hl|f ip protocol _ (m & Hl & Hnd & Hpl & Hv) Hip Hp].
  - exists []. split_and!; [done|apply NoDup_nil_2|apply Forall_nil_2|done].
  - destruct (dict_get m (mapping_key ip protocol)) as [port|] eqn:Hg.
    + exists m. by rewrite (resolve_known f m ip protocol port).
    + destruct (resolve_new_plain f m ip protocol) as [_ Hl'];
        [done..|].
      exists (m ++ [(mapping_key ip protocol, next_port m)]).
      split_and!; [done| | |].
      * unfold keys. rewrite fmap_app. apply NoDup_app. split; [done|].
        split; [|apply NoDup_singleton].
        intros k Hk ->%list_elem_of_singleton. by apply dict_get_None in Hg.
      * unfold keys. rewrite fmap_app. apply Forall_app. split; [done|].
        apply Forall_singleton. by apply plain_key_pair.
      * unfold values in *. rewrite fmap_app, length_app, Nat.add_1_r.
        rewrite consecutive_ports_S, Hv. simpl.
        by rewrite (next_port_consecutive m Hv).
Qed.

(** X2. When only plain hosts and protocols are resolved, starting from
    an empty store, the stored ports are 10000, 10001, ... without a
    gap, in the order in which the pairs were first resolved; the next
    new pair gets 10000 plus the number of stored pairs. *)
Theorem plain_ports_consecutive (f : file) :
  plain_reachable f →
  ∃ m, load_mappings f = Ok m ∧
       values m = consecutive_ports (length m) ∧
       ∀ ip protocol,
         plain ip → plain protocol →
         dict_get m (mapping_key ip protocol) = None →
         (resolve ip protocol f).2 = Ok (10000 + Z.of_nat (length m)).
Proof.
  intros (m & Hl & Hnd & Hpl & Hv)%plain_reachable_inv.
  exists m. split_and!; [done..|]. intros ip protocol Hip Hp Hg.
  destruct (resolve_new_plain f m ip protocol) as [-> _]; [done..|].
  by rewrite (next_port_consecutive m Hv).
Qed.

Lemma plain_ports_consecutive_witness :
  let f := (resolve "10.0.0.2" "http" (resolve "10.0.0.1" "ssh" NoFile).1).1 in
  plain_reachable f ∧
  ∃ m, load_mappings f = Ok m ∧ values m = consecutive_ports (length m).
Proof.
  intros f.
  assert (plain_reachable f) as Hr.
  { apply plain_reachable_resolve; [|reflexivity..].
    apply plain_reachable_resolve; [|reflexivity..].
    apply plain_reachable_empty. reflexivity. }
  split; [exact Hr|].
  destruct (plain_ports_consecutive f Hr) as (m & Hl & Hv & _).
  exists m. split; [exact Hl|exact Hv].
Defined.

(** ** Keys that cannot be written, hosts that cannot be found *)

Lemma serialize_key_raises (k : key) (e : exn) :
  serialize_key k = Raise e → e = IndexError.
Proof. destruct k as [|k0 [|k1 k]]; simpl; congruence. Qed.

Lemma serialize_items_raises (items : list (key * Z)) (acc : dict string Z) :
  ¬ Forall writable_key (keys items) →
  serialize_items items acc = Raise IndexError.
Proof.
  revert acc. induction items as [|[k v] items IH]; intros acc Hnot.
  - destruct Hnot. apply Forall_nil_2.
  - simpl. destruct (serialize_key k) as [s|e] eqn:Ek.
    + apply IH. intros Hall. apply Hnot. unfold keys. csimpl.
      apply Forall_cons. split; [|done].
      destruct k as [|k0 [|k1 k]]; simpl in Ek; try done.
      unfold writable_key. simpl. lia.
    + by rewrite (serialize_key_raises k e Ek).
Qed.

(** X3. When the stored mapping set has a key without delimiter (a key
    that loads as a tuple of fewer than two strings), resolving a pair
    that is not stored raises [IndexError] and leaves the mapping file
    truncated: every stored mapping is lost, and the store loads as
    empty afterwards. *)
Theorem resolve_unwritable_key_truncates
    (f : file) (m : mappings) (ip protocol : string) :
  load_mappings f = Ok m →
  ¬ Forall writable_key (keys m) →
  dict_get m (mapping_key ip protocol) = None →
  resolve ip protocol f = (EmptyFile, Raise IndexError) ∧
  load_mappings (resolve ip protocol f).1 = Ok [].
Proof.
  intros Hl Hnot Hg.
  assert (resolve ip protocol f = (EmptyFile, Raise IndexError)) as ->; [|done].
  unfold resolve, allocate. rewrite Hl, Hg, dict_set_fresh by done.
  assert (serialize_items (m ++ [(mapping_key ip protocol, next_port m)]) []
          = Raise IndexError) as E.
  { apply serialize_items_raises. intros Hall. apply Hnot.
    unfold keys in Hall. rewrite fmap_app in Hall.
    by apply Forall_app in Hall as [? _]. }
  pose proof (load_ok_openable f m Hl) as Hf.
  destruct f; simpl; rewrite ?E; done.
Qed.

Lemma resolve_unwritable_key_truncates_witness :
  let f := Json (JObject [("10.0.0.1|ssh", 10000); ("localhost", 10001)]) in
  load_mappings f
  = Ok [(["10.0.0.1"; "ssh"], 10000); (["localhost"], 10001)] ∧
  resolve "10.0.0.2" "ssh" f = (EmptyFile, Raise IndexError).
Proof.
  intros f. split; [reflexivity|].
  refine (proj1 (resolve_unwritable_key_truncates f _ "10.0.0.2" "ssh"
                   eq_refl _ eq_refl)).
  intros Hall. apply Forall_cons in Hall as [_ Hall].
  apply Forall_cons in Hall as [Hk _]. unfold writable_key in Hk.
  simpl in Hk. lia.
Defined.

(** No part of a split string contains the separator. *)
Lemma split_parts_free (sep : ascii) (s : string) :
  Forall (fun part => occurrences sep part = 0%nat) (split sep s).
Proof.
  induction s as [|c s IH]; simpl.
  - by apply Forall_singleton.
  - destruct (decide (c = sep)) as [->|Hne].
    + by apply Forall_cons.
    + destruct (split sep s) as [|part parts].
      * apply Forall_singleton. simpl. by rewrite decide_False.
      * apply Forall_cons in IH as [Hpart Hparts]. apply Forall_cons.
        split; [|done]. simpl. by rewrite decide_False.
Qed.

Lemma keys_fold_dict_set {K V} `{EqDecision K}
    (items : list (K * V)) (d : dict K V) (k : K) :
  k ∈ keys (fold_left (fun a kv => dict_set a kv.1 kv.2) items d) →
  k ∈ keys d ∨ k ∈ keys items.
Proof.
  revert d. induction items as [|[k' v'] items IH]; intros d; simpl; [auto|].
  intros [[->|Hd]%keys_dict_set_elem|Hi]%IH.
  - right. unfold keys. csimpl. apply list_elem_of_here.
  - by left.
  - right. unfold keys in *. csimpl. by apply list_elem_of_further.
Qed.

(** Every key that [load_mappings] returns is a split file key. *)
Lemma loaded_key_split (f : file) (m : mappings) (k : key) :
  load_mappings f = Ok m → k ∈ keys m → ∃ s, k = split DELIMITER s.
Proof.
  destruct f as [| | | |[members|items]]; simpl; intros [= <-];
    try by intros ?%elem_of_nil.
  unfold dict_of_items at 1.
  intros [Hk|Hk]%keys_fold_dict_set; [by apply elem_of_nil in Hk|].
  rewrite keys_loaded in Hk.
  apply list_elem_of_fmap in Hk as (s & -> & _). by exists s.
Qed.

(** X4. A host that contains the delimiter is never found in the store,
    whatever the store holds: every request for it allocates a new
    port and writes the mapping file again. *)
Theorem delimited_host_always_allocates
    (f : file) (m : mappings) (ip protocol : string) :
  load_mappings f = Ok m →
  Forall writable_key (keys m) →
  ¬ plain ip →
  dict_get m (mapping_key ip protocol) = None ∧
  ∃ o, resolve ip protocol f = (Json (JObject o), Ok (next_port m)) ∧
       next_port m ∉ values m.
Proof.
  intros Hl Hw Hip.
  assert (dict_get m (mapping_key ip protocol) = None) as Hg.
  { apply dict_get_None. intros (s & Hs)%(loaded_key_split f m); [|done].
    pose proof (split_parts_free DELIMITER s) as Hfree.
    rewrite <- Hs in Hfree. by apply Forall_cons in Hfree as [? _]. }
  split; [done|].
  destruct (resolve_new f m ip protocol Hl Hw Hg) as (o & Hr & _).
  exists o. split; [done|]. apply next_port_fresh.
Qed.

Lemma delimited_host_always_allocates_witness :
  let f := (resolve "a|b" "ssh" (resolve "a|b" "ssh" NoFile).1).1 in
  load_mappings f
  = Ok [(["a"; "b"], 10000); (["a"; "b"; "ssh"], 10001)] ∧
  ∃ o, resolve "a|b" "ssh" f = (Json (JObject o), Ok 10002).
Proof.
  intros f. split; [reflexivity|].
  destruct (delimited_host_always_allocates f _ "a|b" "ssh" eq_refl)
    as (_ & o & Hr & _).
  - repeat constructor.
  - intros Hp. unfold plain in Hp. simpl in Hp. discriminate Hp.
  - exists o. exact Hr.
Defined.

(** ** Requests that do nothing *)

Lemma truthy_Some (s : string) : truthy (Some s) = true → s ≠ "".
Proof.
  unfold truthy. intros H ->. by rewrite bool_decide_eq_true_2 in H.
Qed.

(** X5. [index] changes the mapping file, starts a proxy thread or
    redirects only for a request that carries, as query arguments of a
    GET or as form fields of a POST, a non-empty host and one of the
    four supported protocols.  A request for any other protocol, a
    request that lacks a parameter, and a HEAD request leave the store
    as it is and start nothing. *)
Theorem index_acts_only_on_supported
    (r : request) (f f' : file) (res : result (response * option spawn)) :
  index r f = (f', res) →
  f' ≠ f ∨ (∃ resp s, res = Ok (resp, Some s)) ∨
    (∃ location s, res = Ok (Redirect location, s)) →
  ∃ protocol ip internal_port,
    dict_get PROTOCOL_PORTS protocol = Some internal_port ∧
    protocol ≠ "" ∧ ip ≠ "" ∧
    (method r = GET ∧ dict_get (args r) "protocol" = Some protocol ∧
       dict_get (args r) "ip" = Some ip ∨
     method r = POST ∧ dict_get (form r) "protocol" = Some protocol ∧
       dict_get (form r) "ip" = Some ip).
Proof.
  unfold index, render_form. intros Hidx Hacts.
  assert (∀ error, (f, Ok (RenderIndex error, None)) = (f', res) → False)
    as Hquiet.
  { intros error [= <- <-].
    by destruct Hacts as [?|[(? & ? & [=])|(? & ? & [=])]]. }
  destruct (method r) eqn:Hm.
  - destruct (dict_get (args r) "protocol") as [protocol|] eqn:Hp;
      [|by destruct (Hquiet _ Hidx)].
    destruct (dict_get (args r) "ip") as [ip|] eqn:Hip;
      [|by destruct (Hquiet _ Hidx)].
    destruct (truthy (Some protocol)) eqn:Tp; [|by destruct (Hquiet _ Hidx)].
    destruct (truthy (Some ip)) eqn:Ti; [|by destruct (Hquiet _ Hidx)].
    simpl andb in Hidx. cbv iota in Hidx.
    destruct (dict_get PROTOCOL_PORTS protocol) as [internal_port|] eqn:Hpp;
      [|by destruct (Hquiet _ Hidx)].
    exists protocol, ip, internal_port.
    split_and!; [done|by apply truthy_Some|by apply truthy_Some|by left].
  - destruct (dict_get (form r) "protocol") as [protocol|] eqn:Hp;
      [|by destruct (Hquiet _ Hidx)].
    destruct (dict_get (form r) "ip") as [ip|] eqn:Hip;
      [|by destruct (Hquiet _ Hidx)].
    destruct (truthy (Some protocol)) eqn:Tp; [|by destruct (Hquiet _ Hidx)].
    destruct (truthy (Some ip)) eqn:Ti; [|by destruct (Hquiet _ Hidx)].
    simpl andb in Hidx. cbv iota in Hidx.
    destruct (dict_get PROTOCOL_PORTS protocol) as [internal_port|] eqn:Hpp;
      [|by destruct (Hquiet _ Hidx)].
    exists protocol, ip, internal_port.
    split_and!; [done|by apply truthy_Some|by apply truthy_Some|by right].
  - by destruct (Hquiet _ Hidx).
Qed.

Lemma index_acts_only_on_supported_witness :
  let r := {| method := GET;
              args := [("ip", "10.0.0.1"); ("protocol", "ssh")];
              form := []; host := "localhost:5000" |} in
  index r NoFile
  = (Json (JObject [("10.0.0.1|ssh", 10000)]),
     Ok (Redirect "ssh://localhost:10000", Some (10000, "10.0.0.1", 22))) ∧
  ∃ protocol ip internal_port,
    dict_get PROTOCOL_PORTS protocol = Some internal_port ∧
    protocol ≠ "" ∧ ip ≠ "" ∧
    (method r = GET ∧ dict_get (args r) "protocol" = Some protocol ∧
       dict_get (args r) "ip" = Some ip ∨
     method r = POST ∧ dict_get (form r) "protocol" = Some protocol ∧
       dict_get (form r) "ip" = Some ip).
Proof.
  intros r. split; [reflexivity|].
  apply (index_acts_only_on_supported r NoFile _ _ eq_refl).
  right. left. eexists _, _. reflexivity.
Defined.

(** ** Starting and stopping proxies *)

(** The thread that [start_tcp_proxy] starts for a port: it ends at
    once when the bind fails and accepts otherwise. *)
Lemma start_tcp_proxy_returns
    (port : Z) (ip : string) (rport : Z) (w : world) :
  (∀ t wk, active_proxies w !! port = Some t →
           threads w !! t = Some wk → state wk = Exited) →
  ∃ w', start_tcp_proxy port ip rport w = Returns w' ∧
        active_proxies w' = <[port := length (threads w)]> (active_proxies w) ∧
        threads w'
        = threads w ++
            [{| local_port := port; remote_ip := ip; remote_port := rport;
                state := if decide (port ∈ unavailable w)
                         then Exited else Accepting |}] ∧
        unavailable w' = if decide (port ∈ unavailable w)
                         then unavailable w else {[port]} ∪ unavailable w.
Proof.
  intros Hended. unfold start_tcp_proxy.
  assert (∃ w1, (if decide (is_Some (active_proxies w !! port))
                 then stop_proxy port w else Returns w) = Returns w1 ∧
                <[port := length (threads w)]> (active_proxies w1)
                = <[port := length (threads w)]> (active_proxies w) ∧
                threads w1 = threads w ∧ unavailable w1 = unavailable w)
    as (w1 & -> & Hreg & Hth & Hun).
  { case_decide as Hreg; [|by exists w].
    destruct Hreg as [t Hreg]. unfold stop_proxy, join_thread.
    rewrite Hreg. simpl.
    destruct (threads w !! t) as [wk|] eqn:Ht.
    - rewrite (Hended t wk Hreg Ht). eexists. split; [done|]. simpl.
      by rewrite insert_delete_eq.
    - eexists. split; [done|]. simpl. by rewrite insert_delete_eq. }
  eexists. split; [reflexivity|]. unfold proxy_worker. rewrite Hun.
  case_decide; simpl; by rewrite Hth, Hreg, ?Hun.
Qed.

(** A free port: the call returns with a listener, and the rest of the
    registry is as before. *)
Lemma start_free_port_listens_aux
    (port : Z) (ip : string) (rport : Z) (w : world) :
  port ∉ unavailable w →
  (∀ t wk, active_proxies w !! port = Some t →
           threads w !! t = Some wk → state wk = Exited) →
  ∃ w', start_tcp_proxy port ip rport w = Returns w' ∧
        running w' port ip rport ∧
        unavailable w' = {[port]} ∪ unavailable w ∧
        (∀ q, q ≠ port → active_proxies w' !! q = active_proxies w !! q) ∧
        (∀ q ip' rport', q ≠ port →
           running w q ip' rport' → running w' q ip' rport').
Proof.
  intros Hfree Hended.
  destruct (start_tcp_proxy_returns port ip rport w Hended)
    as (w' & Hs & Hreg & Hth & Hun).
  rewrite decide_False in Hth by done. rewrite decide_False in Hun by done.
  exists w'. split_and!; [done| |done| |].
  - exists (length (threads w)). rewrite Hreg, Hth, lookup_insert_eq.
    split; [done|]. by rewrite list_lookup_middle.
  - intros q Hq. by rewrite Hreg, lookup_insert_ne.
  - intros q ip' rport' Hq (t & Ht & Hwk). exists t.
    rewrite Hreg, Hth, lookup_insert_ne by done. split; [done|].
    by apply lookup_app_l_Some.
Qed.

(** X6. Starting a proxy on a port that is free, and that the registry
    does not list (or lists with a thread that has ended), returns with
    a listener running on the port for the requested target.  The port
    is then taken, and neither the registry entries nor the listeners of
    the other ports are touched. *)
Theorem start_free_port_listens
    (port : Z) (ip : string) (rport : Z) (w : world) :
  port ∉ unavailable w →
  (∀ t wk, active_proxies w !! port = Some t →
           threads w !! t = Some wk → state wk = Exited) →
  ∃ w', start_tcp_proxy port ip rport w = Returns w' ∧
        running w' port ip rport ∧
        unavailable w' = {[port]} ∪ unavailable w ∧
        (∀ q, q ≠ port → active_proxies w' !! q = active_proxies w !! q) ∧
        (∀ q ip' rport', q ≠ port →
           running w q ip' rport' → running w' q ip' rport').
Proof. apply start_free_port_listens_aux. Qed.

Lemma start_free_port_listens_witness :
  (10000 ∉ unavailable fresh_world) ∧
  ∃ w', start_tcp_proxy 10000 "10.0.0.1" 22 fresh_world = Returns w' ∧
        running w' 10000 "10.0.0.1" 22.
Proof.
  assert (10000 ∉ unavailable fresh_world) as Hfree
    by (eapply (bool_decide_unpack _); vm_compute; exact I).
  split; [exact Hfree|].
  destruct (start_free_port_listens 10000 "10.0.0.1" 22 fresh_world Hfree)
    as (w' & Hs & Hrun & _).
  - intros t wk Hreg. vm_compute in Hreg. discriminate Hreg.
  - exists w'. split; [exact Hs|exact Hrun].
Defined.

(** X7. Starting a proxy on a port whose listener is running never
    returns, whatever the target: the call removes the registry entry
    of the port and then waits for the old thread, which goes on
    listening for the old target on the socket it holds. *)
Theorem start_running_port_blocks
    (port : Z) (ip0 ip : string) (rport0 rport : Z) (w : world) :
  running w port ip0 rport0 →
  ∃ w', start_tcp_proxy port ip rport w = Blocks w' ∧
        active_proxies w' !! port = None ∧
        threads w' = threads w ∧
        unavailable w' = unavailable w ∧
        ¬ running w' port ip0 rport0.
Proof.
  intros (t & Hreg & Ht). unfold start_tcp_proxy.
  rewrite decide_True by (by rewrite Hreg).
  unfold stop_proxy, join_thread. rewrite Hreg. simpl. rewrite Ht. simpl.
  eexists. split; [done|]. simpl. rewrite lookup_delete_eq.
  split_and!; [done..|]. intros (t' & Hreg' & _). simpl in Hreg'.
  by rewrite lookup_delete_eq in Hreg'.
Qed.

Lemma start_running_port_blocks_witness :
  running listening_world 10000 "10.0.0.1" 22 ∧
  ∃ w', start_tcp_proxy 10000 "10.0.0.9" 80 listening_world = Blocks w' ∧
        active_proxies w' !! 10000 = None.
Proof.
  assert (running listening_world 10000 "10.0.0.1" 22) as Hrun
    by (exists 0%nat; split; vm_compute; reflexivity).
  split; [exact Hrun|].
  destruct (start_running_port_blocks 10000 "10.0.0.1" "10.0.0.9" 22 80
              listening_world Hrun) as (w' & Hs & Hreg & _).
  exists w'. split; [exact Hs|exact Hreg].
Defined.

(** X8. After [stop_proxy] the registry does not list the port, whether
    the call has returned or waits for the thread; the entries of the
    other ports are as before, and stopping the port again returns at
    once and changes nothing. *)
Theorem stop_proxy_again_is_noop (port : Z) (w : world) :
  let w1 := world_of (stop_proxy port w) in
  active_proxies w1 !! port = None ∧
  (∀ q, q ≠ port → active_proxies w1 !! q = active_proxies w !! q) ∧
  stop_proxy port w1 = Returns w1.
Proof.
  assert (active_proxies (world_of (stop_proxy port w)) !! port = None ∧
          ∀ q, q ≠ port →
               active_proxies (world_of (stop_proxy port w)) !! q
               = active_proxies w !! q) as [Hnone Hother].
  { unfold stop_proxy, join_thread.
    destruct (active_proxies w !! port) as [t|] eqn:Hreg; [|done].
    simpl. destruct (threads w !! t) as [wk|]; [destruct (state wk)|];
      simpl; (split; [apply lookup_delete_eq|]);
      intros q Hq; by rewrite lookup_delete_ne. }
  simpl. split_and!; [done..|].
  unfold stop_proxy at 1. by rewrite Hnone.
Qed.

(** ** The registry stays consistent *)

Lemma world_inv_fresh : world_inv fresh_world.
Proof. split; simpl; intros *; by rewrite ?lookup_empty, ?lookup_nil. Qed.

Lemma world_inv_unregister (port : Z) (w : world) :
  world_inv w →
  world_inv {| active_proxies := delete port (active_proxies w);
               threads := threads w; unavailable := unavailable w |}.
Proof.
  intros [Hreg Hbound Hone]. split; simpl; [|done..].
  intros q t [_ Hq]%lookup_delete_Some. by apply Hreg.
Qed.

Lemma stop_proxy_world (port : Z) (w : world) :
  world_of (stop_proxy port w) = w ∨
  world_of (stop_proxy port w)
  = {| active_proxies := delete port (active_proxies w);
       threads := threads w; unavailable := unavailable w |}.
Proof.
  unfold stop_proxy, join_thread.
  destruct (active_proxies w !! port) as [t|]; [|by left].
  right. simpl. destruct (threads w !! t) as [wk|]; [destruct (state wk)|];
    done.
Qed.

Lemma lookup_snoc_Some {A} (l : list A) (x y : A) (i : nat) :
  (l ++ [x]) !! i = Some y ↔ l !! i = Some y ∨ i = length l ∧ y = x.
Proof.
  rewrite lookup_app_Some. split; intros [H|[Hi H]]; [by left| |by left|].
  - right. apply list_lookup_singleton_Some in H as [Hz ->].
    split; [lia|done].
  - right. subst. split; [lia|]. by rewrite Nat.sub_diag.
Qed.

Lemma start_tcp_proxy_blocked
    (port : Z) (ip : string) (rport : Z) (w : world) (t : nat) (wk : worker) :
  active_proxies w !! port = Some t →
  threads w !! t = Some wk →
  state wk = Accepting →
  start_tcp_proxy port ip rport w
  = Blocks {| active_proxies := delete port (active_proxies w);
              threads := threads w; unavailable := unavailable w |}.
Proof.
  intros Hreg Ht Hst. unfold start_tcp_proxy.
  rewrite decide_True by (by rewrite Hreg).
  unfold stop_proxy, join_thread. rewrite Hreg. simpl. by rewrite Ht, Hst.
Qed.

Lemma world_inv_started
    (port : Z) (ip : string) (rport : Z) (w w' : world) :
  world_inv w →
  active_proxies w' = <[port := length (threads w)]> (active_proxies w) →
  threads w'
  = threads w ++
      [{| local_port := port; remote_ip := ip; remote_port := rport;
          state := if decide (port ∈ unavailable w)
                   then Exited else Accepting |}] →
  unavailable w' = (if decide (port ∈ unavailable w)
                    then unavailable w else {[port]} ∪ unavailable w) →
  world_inv w'.
Proof.
  intros [Hreg Hbound Hone] Ereg Eth Eun.
  assert (∀ t wk, threads w !! t = Some wk → (t < length (threads w))%nat)
    as Hlt by (intros t wk Ht; by eapply lookup_lt_Some).
  assert (unavailable w ⊆ unavailable w') as Hsub
    by (rewrite Eun; case_decide; [done|apply union_subseteq_r]).
  split.
  - intros q t. rewrite Ereg, Eth. intros Hq.
    apply lookup_insert_Some in Hq as [[<- <-]|[Hne Hq]].
    + eexists. split; [by apply list_lookup_middle|done].
    + destruct (Hreg q t Hq) as (wk & Ht & Hp). exists wk.
      split; [by apply lookup_app_l_Some|done].
  - intros t wk. rewrite Eth. intros [Ht|[-> ->]]%lookup_snoc_Some Hst.
    + apply Hsub. by eapply Hbound.
    + simpl in *. rewrite Eun. case_decide; [done|].
      apply elem_of_union. left. by apply elem_of_singleton.
  - intros t1 t2 wk1 wk2. rewrite Eth.
    intros [H1|[-> ->]]%lookup_snoc_Some [H2|[-> ->]]%lookup_snoc_Some
      Hs1 Hs2 Hp; simpl in *.
    + by eapply Hone.
    + case_decide as Hin; [done|]. destruct Hin. rewrite <- Hp.
      by eapply Hbound.
    + case_decide as Hin; [done|]. destruct Hin. rewrite Hp.
      by eapply Hbound.
    + done.
Qed.

(** X9. The registry operations keep the registry consistent: after
    [start_tcp_proxy] and after [stop_proxy], every registered thread
    exists and was started for the port it is registered under, every
    accepting worker holds its port, and no two workers accept on the
    same port. *)
Theorem registry_stays_consistent
    (port : Z) (ip : string) (rport : Z) (w : world) :
  world_inv w →
  world_inv (world_of (start_tcp_proxy port ip rport w)) ∧
  world_inv (world_of (stop_proxy port w)).
Proof.
  intros Hinv. split; cycle 1.
  { destruct (stop_proxy_world port w) as [->| ->];
      [done|by apply world_inv_unregister]. }
  assert ((∃ t wk, active_proxies w !! port = Some t ∧
                   threads w !! t = Some wk ∧ state wk = Accepting) ∨
          (∀ t wk, active_proxies w !! port = Some t →
                   threads w !! t = Some wk → state wk = Exited))
    as [(t & wk & Hreg & Ht & Hst)|Hended].
  { destruct (active_proxies w !! port) as [t|]; [|by right].
    destruct (threads w !! t) as [wk|] eqn:Ht;
      [|right; intros t' wk' [= <-] Ht'; congruence].
    destruct (state wk) eqn:Hst; [left; by exists t, wk|].
    right. intros t' wk' [= <-] Ht'. rewrite Ht in Ht'. by injection Ht' as <-. }
  - rewrite (start_tcp_proxy_blocked port ip rport w t wk Hreg Ht Hst).
    by apply world_inv_unregister.
  - destruct (start_tcp_proxy_returns port ip rport w Hended)
      as (w' & -> & Ereg & Eth & Eun).
    by eapply world_inv_started.
Qed.

Lemma registry_stays_consistent_witness :
  world_inv fresh_world ∧
  world_inv (world_of (start_tcp_proxy 10000 "10.0.0.1" 22 fresh_world)).
Proof.
  split; [exact world_inv_fresh|].
  exact (proj1 (registry_stays_consistent 10000 "10.0.0.1" 22 fresh_world
                  world_inv_fresh)).
Defined.

(** ** Starting several proxies *)

Lemma run_threads_cons (s : spawn) (ss : list spawn) (w : world) :
  run_threads (s :: ss) w
  = run_threads ss (world_of (start_tcp_proxy s.1.1 s.1.2 s.2 w)).
Proof. done. Qed.

Lemma run_threads_listen (ss : list spawn) :
  ∀ w : world,
    NoDup (ss.*1.*1) →
    (∀ port, port ∈ ss.*1.*1 →
             (port ∉ unavailable w) ∧ active_proxies w !! port = None) →
    (∀ port ip rport, (port, ip, rport) ∈ ss →
                      running (run_threads ss w) port ip rport) ∧
    (∀ q ip rport, q ∉ ss.*1.*1 → running w q ip rport →
                   running (run_threads ss w) q ip rport).
Proof.
  induction ss as [|[[p ip0] rp0] ss IH]; intros w Hnd Hfree.
  - split; [by intros ? ? ? ?%elem_of_nil|done].
  - csimpl in Hnd. apply NoDup_cons in Hnd as [Hp Hnd].
    destruct (Hfree p) as [Hpfree Hpreg]; [csimpl; apply list_elem_of_here|].
    destruct (start_free_port_listens_aux p ip0 rp0 w Hpfree)
      as (w1 & Hs & Hrun & Hun & Hother & Hkeep).
    { intros t wk Hreg. congruence. }
    rewrite run_threads_cons. simpl. rewrite Hs. simpl.
    destruct (IH w1 Hnd) as [IH1 IH2].
    { intros q Hq. assert (q ≠ p) as Hne by (by intros ->).
      destruct (Hfree q) as [Hqfree Hqreg];
        [csimpl; by apply list_elem_of_further|].
      split; [|by rewrite Hother].
      rewrite Hun. intros [Hq1%elem_of_singleton|?]%elem_of_union; done. }
    split.
    + intros port ip rport [[= -> -> ->]|Hin]%elem_of_cons.
      * by apply IH2.
      * by apply IH1.
    + intros q ip rport Hq Hrunq. csimpl in Hq.
      apply not_elem_of_cons in Hq as [Hne Hq].
      apply IH2; [done|]. by apply Hkeep.
Qed.

(** X10. Proxy threads for pairwise different ports that are free and
    not registered, run one after the other in any order: none of them
    blocks, and in the end a listener runs on every one of the ports
    for its target. *)
Theorem started_threads_all_listen
    (ss ss' : list spawn) (w : world) (port : Z) (ip : string) (rport : Z) :
  NoDup (ss.*1.*1) →
  (∀ q, q ∈ ss.*1.*1 →
        (q ∉ unavailable w) ∧ active_proxies w !! q = None) →
  ss' ≡ₚ ss →
  (port, ip, rport) ∈ ss →
  running (run_threads ss' w) port ip rport.
Proof.
  intros Hnd Hfree Hperm Hin.
  assert (ss'.*1.*1 ≡ₚ ss.*1.*1) as Hports by (by rewrite Hperm).
  destruct (run_threads_listen ss' w) as [Hall _].
  - by rewrite Hports.
  - intros q Hq. apply Hfree. by rewrite <- Hports.
  - apply Hall. by rewrite Hperm.
Qed.

Lemma started_threads_all_listen_witness :
  let ss : list spawn := [(10000, "10.0.0.1", 22); (10001, "10.0.0.2", 80)] in
  let ss' : list spawn := [(10001, "10.0.0.2", 80); (10000, "10.0.0.1", 22)] in
  NoDup (ss.*1.*1) ∧ ss' ≡ₚ ss ∧
  running (run_threads ss' fresh_world) 10000 "10.0.0.1" 22.
Proof.
  intros ss ss'.
  assert (NoDup (ss.*1.*1)) as Hnd
    by (eapply (bool_decide_unpack _); vm_compute; exact I).
  assert (ss' ≡ₚ ss) as Hperm by apply Permutation_swap.
  split; [exact Hnd|]. split; [exact Hperm|].
  apply (started_threads_all_listen ss ss' fresh_world); [exact Hnd| |exact Hperm|].
  - intros q _. split; [apply not_elem_of_empty|apply lookup_empty].
  - apply list_elem_of_here.
Defined.

(** ** Restarting the proxies of the stored mappings *)

Lemma restart_items_cons (ip protocol : string) (port : Z) (m : mappings) :
  restart_items ((mapping_key ip protocol, port) :: m)
  = (match dict_get PROTOCOL_PORTS protocol with
     | Some internal_port => Restarted port ip internal_port
     | None => Skipped protocol ip port
     end :: (restart_items m).1, (restart_items m).2).
Proof. done. Qed.

Lemma events_restarted (port : Z) (ip : string) (internal_port : Z)
    (events : list restart_event) :
  started (Restarted port ip internal_port :: events)
  = (port, ip, internal_port) :: started events ∧
  skipped (Restarted port ip internal_port :: events) = skipped events.
Proof. done. Qed.

Lemma events_skipped (protocol ip : string) (port : Z)
    (events : list restart_event) :
  started (Skipped protocol ip port :: events) = started events ∧
  skipped (Skipped protocol ip port :: events)
  = (protocol, ip, port) :: skipped events.
Proof. done. Qed.

Lemma restart_items_pairs (m : mappings) :
  all_pairs m →
  (restart_items m).2 = None ∧
  (length (started (restart_items m).1)
   + length (skipped (restart_items m).1) = length m)%nat ∧
  (started (restart_items m).1).*1.*1 `sublist_of` values m ∧
  ∀ ip protocol port,
    (mapping_key ip protocol, port) ∈ m →
    match dict_get PROTOCOL_PORTS protocol with
    | Some internal_port =>
        (port, ip, internal_port) ∈ started (restart_items m).1
    | None => (protocol, ip, port) ∈ skipped (restart_items m).1
    end.
Proof.
  unfold all_pairs. induction m as [|[k port0] m IH]; intros Hpairs.
  - split_and!; [done..|]. by intros ? ? ? ?%elem_of_nil.
  - unfold keys in Hpairs. csimpl in Hpairs.
    apply Forall_cons in Hpairs as [Hk Hpairs].
    destruct (IH Hpairs) as (He & Hlen & Hsub & Hin).
    destruct k as [|ip0 [|protocol0 [|? ?]]]; try done.
    change [ip0; protocol0] with (mapping_key ip0 protocol0).
    rewrite restart_items_cons. unfold values.
    destruct (dict_get PROTOCOL_PORTS protocol0) as [internal_port|] eqn:Hpp;
      cbn [fst snd];
      [destruct (events_restarted port0 ip0 internal_port (restart_items m).1)
         as [-> ->]
      |destruct (events_skipped protocol0 ip0 port0 (restart_items m).1)
         as [-> ->]];
      rewrite !fmap_cons; cbn [fst snd length].
    + split_and!; [done|lia|by apply sublist_skip|].
      intros ip protocol port [[= -> -> ->]|Hm]%elem_of_cons.
      * rewrite Hpp. apply list_elem_of_here.
      * specialize (Hin ip protocol port Hm).
        destruct (dict_get PROTOCOL_PORTS protocol);
          [by apply list_elem_of_further|done].
    + split_and!; [done|lia|by apply sublist_cons|].
      intros ip protocol port [[= -> -> ->]|Hm]%elem_of_cons.
      * rewrite Hpp. apply list_elem_of_here.
      * specialize (Hin ip protocol port Hm).
        destruct (dict_get PROTOCOL_PORTS protocol);
          [done|by apply list_elem_of_further].
Qed.

(** X11. When every stored key is a pair, [restart_proxies] ends
    without an exception and treats every mapping once: it starts a
    proxy thread with the protocol's port for each mapping whose
    protocol is supported and prints a warning for each other one. *)
Theorem restart_proxies_pairs (f : file) (m : mappings) :
  load_mappings f = Ok m →
  all_pairs m →
  (restart_proxies f).2 = None ∧
  (length (started (restart_proxies f).1)
   + length (skipped (restart_proxies f).1) = length m)%nat ∧
  ∀ ip protocol port,
    (mapping_key ip protocol, port) ∈ m →
    match dict_get PROTOCOL_PORTS protocol with
    | Some internal_port =>
        (port, ip, internal_port) ∈ started (restart_proxies f).1
    | None => (protocol, ip, port) ∈ skipped (restart_proxies f).1
    end.
Proof.
  intros Hl Hpairs. unfold restart_proxies. rewrite Hl.
  destruct (restart_items_pairs m Hpairs) as (He & Hlen & _ & Hin). done.
Qed.

Lemma restart_proxies_pairs_witness :
  let f := Json (JObject [("10.0.0.1|ssh", 10000); ("10.0.0.2|http", 10001);
                          ("10.0.0.3|https", 10002); ("10.0.0.4|ftp", 10003)]) in
  (∃ m, load_mappings f = Ok m ∧ all_pairs m) ∧
  (restart_proxies f).2 = None ∧
  length (started (restart_proxies f).1) = 3%nat ∧
  length (skipped (restart_proxies f).1) = 1%nat.
Proof.
  intros f.
  assert (all_pairs [(["10.0.0.1"; "ssh"], 10000); (["10.0.0.2"; "http"], 10001);
                     (["10.0.0.3"; "https"], 10002); (["10.0.0.4"; "ftp"], 10003)])
    as Hpairs by (repeat constructor).
  split; [eexists; split; [reflexivity|exact Hpairs]|].
  split; [|split; reflexivity].
  exact (proj1 (restart_proxies_pairs f _ eq_refl Hpairs)).
Defined.

Lemma plain_keys_all_pairs (m : mappings) :
  Forall plain_key (keys m) → all_pairs m.
Proof.
  unfold all_pairs. intros Hpl. eapply Forall_impl; [exact Hpl|].
  by intros k (ip & protocol & -> & _).
Qed.

Lemma consecutive_ports_NoDup (n : nat) : NoDup (consecutive_ports n).
Proof.
  unfold consecutive_ports. apply NoDup_fmap_2; [|apply NoDup_seq].
  intros i j Hij. lia.
Qed.

(** X12. Start-up after plain requests.  For a store that was built
    from an empty one by resolving plain hosts and protocols,
    [restart_proxies] ends without an exception, and when its threads
    have run on ports that are free, a listener runs on the stored port
    of every mapping with a supported protocol, for the mapping's host
    and the protocol's port. *)
Theorem restart_restores_listeners
    (f : file) (m : mappings) (w : world)
    (ip protocol : string) (port internal_port : Z) :
  plain_reachable f →
  load_mappings f = Ok m →
  (∀ q, q ∈ values m → (q ∉ unavailable w) ∧ active_proxies w !! q = None) →
  (mapping_key ip protocol, port) ∈ m →
  dict_get PROTOCOL_PORTS protocol = Some internal_port →
  (restart_proxies f).2 = None ∧
  running (run_threads (started (restart_proxies f).1) w) port ip internal_port.
Proof.
  intros (m' & Hl' & _ & Hpl & Hv)%plain_reachable_inv Hl Hfree Hin Hpp.
  assert (m' = m) as -> by congruence.
  unfold restart_proxies. rewrite Hl.
  destruct (restart_items_pairs m (plain_keys_all_pairs m Hpl))
    as (He & _ & Hsub & Hall).
  split; [done|]. specialize (Hall ip protocol port Hin). rewrite Hpp in Hall.
  destruct (run_threads_listen (started (restart_items m).1) w) as [Hrun _].
  - eapply sublist_NoDup; [|exact Hsub]. rewrite Hv.
    apply consecutive_ports_NoDup.
  - intros q Hq. apply Hfree. by eapply elem_of_sublist.
  - by apply Hrun.
Qed.

Lemma restart_restores_listeners_witness :
  let f := (resolve "10.0.0.2" "http" (resolve "10.0.0.1" "ssh" NoFile).1).1 in
  plain_reachable f ∧
  (restart_proxies f).2 = None ∧
  running (run_threads (started (restart_proxies f).1) fresh_world)
    10001 "10.0.0.2" 80.
Proof.
  intros f.
  assert (plain_reachable f) as Hr.
  { apply plain_reachable_resolve; [|reflexivity..].
    apply plain_reachable_resolve; [|reflexivity..].
    apply plain_reachable_empty. reflexivity. }
  split; [exact Hr|].
  apply (restart_restores_listeners f _ fresh_world "10.0.0.2" "http"
           10001 80 Hr eq_refl).
  - intros q _. split; [apply not_elem_of_empty|apply lookup_empty].
  - apply list_elem_of_further, list_elem_of_here.
  - reflexivity.
Defined.

Lemma restart_items_raises (m : mappings) :
  ¬ all_pairs m → (restart_items m).2 = Some ValueError.
Proof.
  unfold all_pairs. induction m as [|[k port] m IH]; intros Hnot.
  - destruct Hnot. apply Forall_nil_2.
  - destruct k as [|ip [|protocol [|? ?]]]; try done.
    change [ip; protocol] with (mapping_key ip protocol).
    rewrite restart_items_cons. cbn [snd]. apply IH. intros Hall.
    apply Hnot. unfold keys. csimpl. by apply Forall_cons.
Qed.

(** X13. One request for a host that contains the delimiter makes the
    next start-up fail: after such a host was resolved,
    [restart_proxies] raises [ValueError] when it unpacks the stored
    key, which has more than two parts. *)
Theorem restart_fails_after_delimited_host
    (f : file) (m : mappings) (ip protocol : string) :
  load_mappings f = Ok m →
  Forall writable_key (keys m) →
  ¬ plain ip →
  (restart_proxies (resolve ip protocol f).1).2 = Some ValueError.
Proof.
  intros Hl Hw Hip.
  assert (dict_get m (mapping_key ip protocol) = None) as Hg.
  { apply dict_get_None. intros (s & Hs)%(loaded_key_split f m); [|done].
    pose proof (split_parts_free DELIMITER s) as Hfree.
    rewrite <- Hs in Hfree. by apply Forall_cons in Hfree as [? _]. }
  destruct (resolve_new f m ip protocol Hl Hw Hg) as (o & -> & Ho & Hnd & _).
  unfold restart_proxies. simpl fst. rewrite (load_object o Hnd).
  apply restart_items_raises. unfold all_pairs. rewrite keys_loaded.
  intros Hall.
  pose proof (serialize_items_last _ _ _ _ _ _ Ho eq_refl) as Hlast.
  apply dict_get_Some, (list_elem_of_fmap_2 fst) in Hlast. simpl in Hlast.
  eapply Forall_forall in Hall;
    [|by apply (list_elem_of_fmap_2 (split DELIMITER)), Hlast].
  rewrite split_length, occurrences_joined in Hall.
  unfold plain in Hip. lia.
Qed.

Lemma restart_fails_after_delimited_host_witness :
  load_mappings NoFile = Ok [] ∧ ¬ plain "a|b" ∧
  (restart_proxies (resolve "a|b" "ssh" NoFile).1).2 = Some ValueError.
Proof.
  assert (¬ plain "a|b") as Hip
    by (unfold plain; simpl; intros Hp; discriminate Hp).
  split; [reflexivity|]. split; [exact Hip|].
  apply (restart_fails_after_delimited_host NoFile [] "a|b" "ssh" eq_refl);
    [apply Forall_nil_2|exact Hip].
Defined.

(** ** From the request to the listener *)

(** X14. A GET request for a supported protocol and a pair that is not
    stored, when the next port is free and not registered: the client
    is redirected to the next port, and the thread that [index] starts
    leaves a listener running on that port for the requested host and
    the port of the protocol. *)
Theorem request_starts_listener
    (r : request) (f : file) (m : mappings) (w : world)
    (ip protocol : string) (internal_port : Z) :
  method r = GET →
  dict_get (args r) "protocol" = Some protocol →
  dict_get (args r) "ip" = Some ip →
  protocol ≠ "" → ip ≠ "" →
  dict_get PROTOCOL_PORTS protocol = Some internal_port →
  load_mappings f = Ok m →
  Forall writable_key (keys m) →
  dict_get m (mapping_key ip protocol) = None →
  next_port m ∉ unavailable w →
  active_proxies w !! next_port m = None →
  ∃ f' location,
    index r f
    = (f', Ok (Redirect location, Some (next_port m, ip, internal_port))) ∧
    location = protocol +:+ "://" +:+ hd "" (split ":" (host r))
                 +:+ ":" +:+ pretty (next_port m) ∧
    running (run_threads [(next_port m, ip, internal_port)] w)
      (next_port m) ip internal_port.
Proof.
  intros Hm Hp Hip Hpne Hipne Hpp Hl Hw Hg Hfree Hreg.
  destruct (index_new_pair r f m ip protocol internal_port) as (o & -> & _);
    [done..|].
  eexists _, _. split; [done|]. split; [done|].
  destruct (start_free_port_listens_aux (next_port m) ip internal_port w Hfree)
    as (w' & Hs & Hrun & _).
  { intros t wk Ht. congruence. }
  unfold run_threads. simpl. by rewrite Hs.
Qed.

Lemma request_starts_listener_witness :
  let r := {| method := GET;
              args := [("ip", "10.0.0.1"); ("protocol", "ssh")];
              form := []; host := "localhost:5000" |} in
  load_mappings NoFile = Ok [] ∧
  ∃ f',
    index r NoFile
    = (f', Ok (Redirect "ssh://localhost:10000", Some (10000, "10.0.0.1", 22))) ∧
    running (run_threads [(10000, "10.0.0.1", 22)] fresh_world)
      10000 "10.0.0.1" 22.
Proof.
  intros r. split; [reflexivity|].
  destruct (request_starts_listener r NoFile [] fresh_world "10.0.0.1" "ssh" 22)
    as (f' & location & Hidx & -> & Hrun); try reflexivity.
  - intros [=].
  - intros [=].
  - apply Forall_nil_2.
  - apply not_elem_of_empty.
  - exists f'. split; [exact Hidx|exact Hrun].
Defined.

(** ** Forwarding *)

(** X15. Whatever [recv] gives and whenever [sendall] fails,
    [forward_data] sends a prefix of the chunks it has received, in the
    order received, and never an empty chunk; while it is still waiting
    in [recv], everything received so far has been sent. *)
Theorem forward_data_sends_prefix
    (recvs : list recv_result) (send_fails : option nat) :
  sent (forward_data recvs send_fails) `prefix_of` received recvs ∧
  Forall (fun data => data ≠ "") (sent (forward_data recvs send_fails)) ∧
  (returned (forward_data recvs send_fails) = false →
   sent (forward_data recvs send_fails) = received recvs).
Proof.
  revert send_fails.
  induction recvs as [|[data|] recvs IH]; intros send_fails; simpl.
  - split_and!; [done|apply Forall_nil_2|done].
  - case_decide as Hdata;
      [split_and!; [apply prefix_nil|apply Forall_nil_2|done]|].
    destruct send_fails as [[|n]|]; simpl;
      try (split_and!; [apply prefix_nil|apply Forall_nil_2|done]).
    + destruct (IH (Some n)) as (Hpre & Hne & Hwait).
      split_and!; [by apply prefix_cons|by apply Forall_cons|].
      intros Hret. by rewrite (Hwait Hret).
    + destruct (IH None) as (Hpre & Hne & Hwait).
      split_and!; [by apply prefix_cons|by apply Forall_cons|].
      intros Hret. by rewrite (Hwait Hret).
  - split_and!; [apply prefix_nil|apply Forall_nil_2|done].
Qed.

(** X16. When the peer sends non-empty chunks and then closes, or the
    connection then fails, and every [sendall] succeeds, [forward_data]
    sends exactly those chunks, in order, and returns; what [recv]
    would give afterwards is not read. *)
Theorem forward_data_relays_stream
    (chunks : list string) (last : recv_result) (later : list recv_result) :
  Forall (fun data => data ≠ "") chunks →
  last = Received "" ∨ last = RecvFails →
  forward_data ((Received <$> chunks) ++ last :: later) None
  = {| sent := chunks; returned := true |}.
Proof.
  intros Hne Hlast. induction Hne as [|data chunks Hdata _ IH]; csimpl.
  - by destruct Hlast as [-> | ->].
  - rewrite decide_False by done. by rewrite IH.
Qed.

Lemma forward_data_relays_stream_witness :
  Forall (fun data => data ≠ "") ["GET / "; "HTTP/1.1"] ∧
  forward_data [Received "GET / "; Received "HTTP/1.1"; Received "";
                Received "late"] None
  = {| sent := ["GET / "; "HTTP/1.1"]; returned := true |}.
Proof.
  assert (Forall (fun data => data ≠ "") ["GET / "; "HTTP/1.1"]) as Hne
    by (repeat constructor; intros [=]).
  split; [exact Hne|].
  apply (forward_data_relays_stream ["GET / "; "HTTP/1.1"] (Received "")
           [Received "late"] Hne).
  by left.
Defined.

(** ** After the set-up *)

(** With a mapping file that does not load, [index] raises the
    exception of [load_mappings] or shows the form. *)
Lemma index_load_failure (r : request) (f : file) (e : exn) :
  load_mappings f = Raise e →
  (index r f).1 = f ∧
  ((index r f).2 = Raise e ∨
   ∃ error, (index r f).2 = Ok (RenderIndex error, None)).
Proof.
  intros Hl.
  assert (∀ ip protocol, resolve ip protocol f = (f, Raise e)) as Hres
    by (intros ip protocol; unfold resolve; by rewrite Hl).
  assert (∀ protocol ip : option string,
    let o := match protocol, ip with
             | Some protocol, Some ip =>
                 if truthy (Some protocol) && truthy (Some ip) then
                   match dict_get PROTOCOL_PORTS protocol with
                   | None =>
                       (f, Ok (RenderIndex
                                 (Some ("Unsupported protocol '" +:+ protocol
                                          +:+ "'.")), None))
                   | Some internal_port =>
                       match resolve ip protocol f with
                       | (f', Raise e) => (f', Raise e)
                       | (f', Ok port) =>
                           (f', Ok (Redirect
                                      (protocol +:+ "://" +:+
                                         hd "" (split ":" (host r)) +:+ ":"
                                         +:+ pretty port),
                                    Some (port, ip, internal_port)))
                       end
                   end
                 else (f, Ok (render_form r, None))
             | _, _ => (f, Ok (render_form r, None))
             end in
    o.1 = f ∧ (o.2 = Raise e ∨ ∃ error, o.2 = Ok (RenderIndex error, None)))
    as Hcases.
  { intros [protocol|] [ip|]; cbv beta iota zeta; unfold render_form;
      try (split; [done|right; by eexists]).
    destruct (truthy (Some protocol) && truthy (Some ip));
      [|split; [done|right; by eexists]].
    destruct (dict_get PROTOCOL_PORTS protocol);
      [|split; [done|right; by eexists]].
    rewrite Hres. split; [done|by left]. }
  unfold index. destruct (method r).
  - apply (Hcases (dict_get (args r) "protocol") (dict_get (args r) "ip")).
  - apply (Hcases (dict_get (form r) "protocol") (dict_get (form r) "ip")).
  - apply (Hcases None None).
Qed.

(** X17. The set-up command writes an empty JSON array into a mapping
    file that is missing or empty.  The server cannot load that file:
    where the untouched file loads as the empty mapping set, after the
    set-up [load_mappings] and [restart_proxies] raise [AttributeError],
    and no request is redirected: [index] raises [AttributeError] or
    shows the form, and leaves the file as the set-up wrote it. *)
Theorem setup_breaks_forwarding (f : file) (r : request) :
  f = NoFile ∨ f = EmptyFile →
  load_mappings f = Ok [] ∧
  load_mappings (init_mapping_file true f) = Raise AttributeError ∧
  (restart_proxies (init_mapping_file true f)).2
  = Some (LoadFailed AttributeError) ∧
  (index r (init_mapping_file true f)).1 = init_mapping_file true f ∧
  ((index r (init_mapping_file true f)).2 = Raise AttributeError ∨
   ∃ error, (index r (init_mapping_file true f)).2
            = Ok (RenderIndex error, None)).
Proof.
  intros Hf.
  assert (init_mapping_file true f = Json (JArray [])) as ->
    by (by destruct Hf as [-> | ->]).
  split; [by destruct Hf as [-> | ->]|]. split; [done|]. split; [done|].
  by apply index_load_failure.
Qed.

Lemma setup_breaks_forwarding_witness :
  let r := {| method := GET;
              args := [("ip", "10.0.0.1"); ("protocol", "ssh")];
              form := []; host := "localhost:5000" |} in
  (index r NoFile).2
  = Ok (Redirect "ssh://localhost:10000", Some (10000, "10.0.0.1", 22)) ∧
  (index r (init_mapping_file true NoFile)).1 = init_mapping_file true NoFile ∧
  (index r (init_mapping_file true NoFile)).2 = Raise AttributeError.
Proof.
  intros r. split; [reflexivity|].
  destruct (setup_breaks_forwarding NoFile r (or_introl eq_refl))
    as (_ & _ & _ & Hfile & _).
  split; [exact Hfile|reflexivity].
Defined.

(** ** Saving and loading, in general *)

(** X18. Saving any mapping set whose keys can be written and loading
    it again never invents or doubles a port: the loaded ports are
    among the saved ones, each at most as often, and the loaded keys
    are distinct.  Records can be lost, when keys agree in their first
    two parts. *)
Theorem save_load_no_new_ports (m : mappings) (f : file) :
  f ≠ Unopenable →
  Forall writable_key (keys m) →
  ∃ m', load_mappings (save_mappings m f).1 = Ok m' ∧
        values m' ⊆+ values m ∧
        NoDup (keys m') ∧
        (length m' ≤ length m)%nat.
Proof.
  intros Hf Hw.
  destruct (serialize_items_ok m [] Hw) as (o & Eo & Hnd & _ & Hv).
  { apply NoDup_nil_2. }
  { apply Forall_nil_2. }
  rewrite (save_openable m f o Hf Eo). simpl fst.
  exists (map (fun kv => (split DELIMITER kv.1, kv.2)) o).
  split; [by apply load_object|]. rewrite values_loaded, keys_loaded.
  split; [done|]. split.
  - apply NoDup_fmap_2; [|done]. intros s1 s2. apply split_inj.
  - apply submseteq_length in Hv. unfold values in Hv. simpl in Hv.
    rewrite !length_fmap in Hv. rewrite length_map. exact Hv.
Qed.

Lemma save_load_no_new_ports_witness :
  let m : mappings := [(["a"; "b"; "ssh"], 10000); (["a"; "b"; "http"], 10001)] in
  NoFile ≠ Unopenable ∧ Forall writable_key (keys m) ∧
  load_mappings (save_mappings m NoFile).1 = Ok [(["a"; "b"], 10001)] ∧
  ∃ m', load_mappings (save_mappings m NoFile).1 = Ok m' ∧
        values m' ⊆+ values m.
Proof.
  intros m.
  assert (NoFile ≠ Unopenable) as Hf by (intros [=]).
  assert (Forall writable_key (keys m)) as Hw by (repeat constructor).
  split; [exact Hf|]. split; [exact Hw|]. split; [reflexivity|].
  destruct (save_load_no_new_ports m NoFile Hf Hw) as (m' & Hl & Hv & _).
  exists m'. split; [exact Hl|exact Hv].
Defined.

(** X19. Persist then load is the identity on every mapping set of
    distinct pairs whose hosts and protocols do not contain the
    delimiter: the same records come back, in the same order. *)
Theorem save_load_plain_identity (m : mappings) (f : file) :
  f ≠ Unopenable →
  NoDup (keys m) →
  Forall plain_key (keys m) →
  (save_mappings m f).2 = Ok tt ∧
  load_mappings (save_mappings m f).1 = Ok m.
Proof.
  intros Hf Hnd Hpl. split; [|by apply roundtrip_plain].
  destruct (serialize_items_plain m [] Hpl) as (o & Eo & _); [done|].
  by rewrite (save_openable m f o Hf Eo).
Qed.

Lemma save_load_plain_identity_witness :
  let m : mappings := [(mapping_key "10.0.0.1" "ssh", 10000);
                       (mapping_key "example.org" "https", 10001)] in
  NoFile ≠ Unopenable ∧ NoDup (keys m) ∧
  load_mappings (save_mappings m NoFile).1 = Ok m.
Proof.
  intros m.
  assert (NoFile ≠ Unopenable) as Hf by (intros [=]).
  assert (NoDup (keys m)) as Hnd
    by (eapply (bool_decide_unpack _); vm_compute; exact I).
  split; [exact Hf|]. split; [exact Hnd|].
  apply (save_load_plain_identity m NoFile Hf Hnd).
  repeat constructor; by apply plain_key_pair.
Defined.

(** X20. For a host and a protocol without the delimiter, on any store
    that loads and can be written, resolving twice gives the same port,
    and the second call leaves the mapping file as the first one left
    it. *)
Theorem resolve_twice_plain (f : file) (m : mappings) (ip protocol : string) :
  load_mappings f = Ok m →
  Forall writable_key (keys m) →
  plain ip → plain protocol →
  ∃ port, (resolve ip protocol f).2 = Ok port ∧
          resolve ip protocol (resolve ip protocol f).1
          = ((resolve ip protocol f).1, Ok port).
Proof.
  intros Hl Hw Hip Hp.
  destruct (resolve_idempotent_plain f m ip protocol Hl Hw Hip Hp)
    as (f1 & port & H1 & H2).
  exists port. by rewrite H1.
Qed.

Lemma resolve_twice_plain_witness :
  load_mappings NoFile = Ok [] ∧ plain "10.0.0.1" ∧ plain "ssh" ∧
  ∃ port, (resolve "10.0.0.1" "ssh" NoFile).2 = Ok port ∧
          resolve "10.0.0.1" "ssh" (resolve "10.0.0.1" "ssh" NoFile).1
          = ((resolve "10.0.0.1" "ssh" NoFile).1, Ok port).
Proof.
  split; [reflexivity|]. split; [reflexivity|]. split; [reflexivity|].
  apply (resolve_twice_plain NoFile [] "10.0.0.1" "ssh" eq_refl);
    [apply Forall_nil_2|reflexivity|reflexivity].
Defined.

(** ** The same request twice *)

Lemma supported_protocol_plain (protocol : string) (internal_port : Z) :
  dict_get PROTOCOL_PORTS protocol = Some internal_port →
  plain protocol ∧ protocol ≠ "".
Proof.
  unfold PROTOCOL_PORTS. simpl. intros H.
  repeat case_decide; subst; try done.
Qed.

(** A GET request with both parameters and a supported protocol answers
    with what [resolve] gives. *)
Lemma index_supported (r : request) (f : file)
    (ip protocol : string) (internal_port : Z) :
  method r = GET →
  dict_get (args r) "protocol" = Some protocol →
  dict_get (args r) "ip" = Some ip →
  ip ≠ "" →
  dict_get PROTOCOL_PORTS protocol = Some internal_port →
  index r f
  = match resolve ip protocol f with
    | (f', Raise e) => (f', Raise e)
    | (f', Ok port) =>
        (f', Ok (Redirect (protocol +:+ "://" +:+ hd "" (split ":" (host r))
                             +:+ ":" +:+ pretty port),
                 Some (port, ip, internal_port)))
    end.
Proof.
  intros Hm Hp Hip Hipne Hpp.
  destruct (supported_protocol_plain protocol internal_port Hpp) as [_ Hpne].
  unfold index, truthy. rewrite Hm, Hp, Hip. cbv beta iota zeta.
  rewrite !bool_decide_eq_false_2 by done. cbv beta iota zeta delta [negb andb].
  by rewrite Hpp.
Qed.

Lemma dict_get_snoc {K V} `{EqDecision K} (d : dict K V) (k : K) (v : V) :
  dict_get d k = None → dict_get (d ++ [(k, v)]) k = Some v.
Proof.
  intros Hg. rewrite <- (dict_set_fresh d k v Hg), dict_get_set.
  by rewrite decide_True.
Qed.

(** X21. The same GET request sent twice, for a plain host that is not
    stored yet.  Both requests are answered with the same redirect and
    the second leaves the mapping file alone; the thread of the first
    request leaves a listener running on the port, and the thread of
    the second request takes the port out of the registry and never
    returns, while the first listener goes on holding the port. *)
Theorem repeated_request_unregisters
    (r : request) (f : file) (m : mappings) (w : world)
    (ip protocol : string) (internal_port : Z) :
  method r = GET →
  dict_get (args r) "protocol" = Some protocol →
  dict_get (args r) "ip" = Some ip →
  ip ≠ "" → plain ip →
  dict_get PROTOCOL_PORTS protocol = Some internal_port →
  load_mappings f = Ok m →
  NoDup (keys m) →
  Forall plain_key (keys m) →
  dict_get m (mapping_key ip protocol) = None →
  next_port m ∉ unavailable w →
  active_proxies w !! next_port m = None →
  let s : spawn := (next_port m, ip, internal_port) in
  let w1 := run_threads [s] w in
  let w2 := run_threads [s] w1 in
  (∃ location, (index r f).2 = Ok (Redirect location, Some s)) ∧
  index r (index r f).1 = ((index r f).1, (index r f).2) ∧
  running w1 (next_port m) ip internal_port ∧
  start_tcp_proxy (next_port m) ip internal_port w1 = Blocks w2 ∧
  active_proxies w2 !! next_port m = None ∧
  next_port m ∈ unavailable w2.
Proof.
  intros Hm Hp Hip Hipne Hippl Hpp Hl Hnd Hpl Hg Hfree Hreg s w1 w2.
  destruct (supported_protocol_plain protocol internal_port Hpp) as [Hppl _].
  destruct (resolve_new_plain f m ip protocol) as [Hres Hl1]; [done..|].
  pose proof (index_supported r f ip protocol internal_port
                Hm Hp Hip Hipne Hpp) as Hi1.
  destruct (resolve ip protocol f) as [f1 res] eqn:Er. simpl in Hres, Hl1.
  subst res. rewrite Hi1. simpl fst. simpl snd.
  split; [by eexists|]. split.
  { rewrite (index_supported r f1 ip protocol internal_port) by done.
    rewrite (resolve_known f1 _ ip protocol (next_port m) Hl1); [done|].
    by apply dict_get_snoc. }
  destruct (start_free_port_listens_aux (next_port m) ip internal_port w Hfree)
    as (w' & Hs & Hrun & Hun & _).
  { intros t wk Ht. congruence. }
  assert (w1 = w') as Hw1 by (unfold w1, run_threads; simpl; by rewrite Hs).
  destruct Hrun as (t & Ht & Hwk).
  assert (start_tcp_proxy (next_port m) ip internal_port w1
          = Blocks {| active_proxies := delete (next_port m) (active_proxies w1);
                      threads := threads w1; unavailable := unavailable w1 |})
    as Hblock.
  { rewrite Hw1. by eapply start_tcp_proxy_blocked. }
  assert (w2 = {| active_proxies := delete (next_port m) (active_proxies w1);
                  threads := threads w1; unavailable := unavailable w1 |})
    as -> by (unfold w2, run_threads; simpl; by rewrite Hblock).
  split; [rewrite Hw1; by exists t|]. split; [done|]. simpl.
  split; [apply lookup_delete_eq|]. rewrite Hw1, Hun.
  apply elem_of_union. left. by apply elem_of_singleton.
Qed.

Lemma repeated_request_unregisters_witness :
  let r := {| method := GET;
              args := [("ip", "10.0.0.1"); ("protocol", "ssh")];
              form := []; host := "localhost:5000" |} in
  let w1 := run_threads [(10000, "10.0.0.1", 22)] fresh_world in
  let w2 := run_threads [(10000, "10.0.0.1", 22)] w1 in
  load_mappings NoFile = Ok [] ∧
  index r (index r NoFile).1 = ((index r NoFile).1, (index r NoFile).2) ∧
  running w1 10000 "10.0.0.1" 22 ∧
  active_proxies w2 !! 10000 = None ∧
  10000 ∈ unavailable w2.
Proof.
  intros r w1 w2. split; [reflexivity|].
  destruct (repeated_request_unregisters r NoFile [] fresh_world
              "10.0.0.1" "ssh" 22)
    as (_ & Hsame & Hrun & _ & Hreg & Hbound); try reflexivity.
  - intros [=].
  - apply NoDup_nil_2.
  - apply Forall_nil_2.
  - apply not_elem_of_empty.
  - split; [exact Hsame|]. split; [exact Hrun|]. split; [exact Hreg|exact Hbound].
Defined.

(** * Requests at the same time *)

(** A caller that runs alone does what [resolve] does. *)
Lemma steps_resolve (ip protocol : string) (f : file) :
  run ip protocol [0; 0; 0]%nat ([Calling], f)
  = ([Finished (resolve ip protocol f).2], (resolve ip protocol f).1).
Proof.
  unfold resolve. cbn [run step_at fst snd lookup list_lookup step].
  destruct (load_mappings f) as [m|e] eqn:Hl; cbn; [|done].
  destruct (allocate m (mapping_key ip protocol)) as [port [m'|]]; cbn;
    [|done].
  pose proof (load_ok_openable f m Hl) as Hf.
  destruct f; try done; cbn;
    destruct (serialize_items m' []); done.
Qed.

(** Every move takes a caller one operation further until it has
    finished, which takes three moves at most. *)
Lemma step_stage (ip protocol : string) (c : caller) (f : file) :
  (Nat.min 3 (S (stage c)) ≤ stage (step ip protocol c f).1)%nat.
Proof.
  destruct c as [|m|m' port|r]; simpl.
  - destruct (load_mappings f); simpl; lia.
  - destruct (allocate m (mapping_key ip protocol)) as [port [m'|]];
      [destruct f|]; simpl; lia.
  - destruct (serialize_items m' []); simpl; lia.
  - lia.
Qed.

Lemma run_progress (ip protocol : string) (schedule : list nat) :
  ∀ (s : system) (i : nat) (c : caller),
    s.1 !! i = Some c →
    ∃ c', (run ip protocol schedule s).1 !! i = Some c' ∧
          (Nat.min 3 (stage c + moves i schedule) ≤ stage c')%nat.
Proof.
  induction schedule as [|j schedule IH]; intros s i c Hc.
  - exists c. split; [done|]. change (moves i []) with 0%nat. lia.
  - cbn [run]. unfold moves. rewrite filter_cons.
    destruct (decide (i = j)) as [<-|Hne].
    + destruct (IH (step_at ip protocol i s) i (step ip protocol c s.2).1)
        as (c' & Hc' & Hst).
      { unfold step_at. rewrite Hc. simpl.
        apply list_lookup_insert_eq. by eapply lookup_lt_Some. }
      exists c'. split; [done|].
      pose proof (step_stage ip protocol c s.2). unfold moves in Hst.
      cbn [length]. lia.
    + destruct (IH (step_at ip protocol j s) i c) as (c' & Hc' & Hst).
      { unfold step_at. destruct (s.1 !! j); [|done]. simpl.
        by rewrite list_lookup_insert_ne. }
      exists c'. split; [done|]. by unfold moves in Hst.
Qed.

Lemma Exists_insert_other {A} (P : A → Prop) (l : list A) (i : nat) (x c : A) :
  l !! i = Some c → ¬ P c → Exists P l → Exists P (<[i := x]> l).
Proof.
  intros Hc Hnot (y & Hy & HP)%Exists_exists. apply Exists_exists.
  exists y. split; [|done].
  apply list_elem_of_lookup in Hy as [j Hj].
  apply list_elem_of_lookup. exists j.
  rewrite list_lookup_insert_ne; [done|]. intros ->. congruence.
Qed.

Lemma Exists_insert_here {A} (P : A → Prop) (l : list A) (i : nat) (x c : A) :
  l !! i = Some c → P x → Exists P (<[i := x]> l).
Proof.
  intros Hc HP. apply Exists_exists. exists x. split; [|done].
  apply list_elem_of_lookup. exists i.
  apply list_lookup_insert_eq. by eapply lookup_lt_Some.
Qed.

Lemma no_writer (cs : list caller) :
  forallb (fun c => negb (is_writing c)) cs = true →
  ¬ Exists (fun c => is_writing c = true) cs.
Proof.
  induction cs as [|c cs IH]; simpl; [by intros _ ?%Exists_nil|].
  intros [Hc Hcs]%andb_true_iff [Hw|Hw]%Exists_cons.
  - by rewrite Hw in Hc.
  - by apply IH.
Qed.

Section same_pair.
Variables (ip protocol : string) (f f1 : file) (m m1 m' : mappings) (port : Z)
  (o : dict string Z).
Hypothesis Hload : load_mappings f = Ok m.
Hypothesis Hnew : allocate m (mapping_key ip protocol) = (port, Some m').
Hypothesis Hser : serialize_items m' [] = Ok o.
Hypothesis Hf1 : f1 = Json (JObject o).
Hypothesis Hload1 : load_mappings f1 = Ok m1.
Hypothesis Hknown : allocate m1 (mapping_key ip protocol) = (port, None).

Lemma sets_differ : m1 ≠ m.
Proof using Hnew Hknown. intros E. rewrite E in Hknown. congruence. Qed.

(** One move of one caller keeps the callers and the file as described,
    when the caller does not load a file that a writer has truncated,
    or when the mapping set was empty at the start. *)
Lemma step_at_ok (i : nat) (s : system) :
  Forall (caller_ok m m1 m' port) s.1 →
  file_ok f f1 m s →
  m = [] ∨ (s.1 !! i = Some Calling →
            forallb (fun c => negb (is_writing c)) s.1 = true) →
  Forall (caller_ok m m1 m' port) (step_at ip protocol i s).1 ∧
  file_ok f f1 m (step_at ip protocol i s).
Proof using All.
  destruct s as [cs fl]. unfold step_at, file_ok. simpl. intros Hcs Hfile Hside.
  destruct (cs !! i) as [c|] eqn:Hc; [|done]. simpl.
  pose proof (Forall_lookup_1 _ _ _ _ Hcs Hc) as [->|[->|[->|[->| ->]]]];
    simpl.
  - (* load_mappings *)
    destruct Hfile as [[-> HA]|[->|[-> HC]]].
    + rewrite Hload. simpl. split.
      * apply Forall_insert; [done|]. right. by left.
      * left. split; [done|]. apply Forall_insert; [done|by right].
    + rewrite Hload1. simpl. split.
      * apply Forall_insert; [done|]. right. right. by left.
      * right. by left.
    + simpl. destruct Hside as [->|Hside].
      * split; [apply Forall_insert; [done|]; right; by left|].
        right. right. split; [done|].
        by apply (Exists_insert_other _ _ _ _ Calling).
      * by destruct (no_writer cs (Hside eq_refl)).
  - (* the key is new: open for writing *)
    rewrite Hnew.
    assert (fl ≠ Unopenable) as Hfl.
    { destruct Hfile as [[-> _]|[->|[-> _]]];
        [by eapply load_ok_openable|by rewrite Hf1|done]. }
    assert (∀ w : caller * file, (match fl with
             | Unopenable => (Finished (Raise OSError), fl)
             | _ => w
             end) = w) as -> by (by destruct fl).
    simpl. split.
    + apply Forall_insert; [done|]. do 3 right. by left.
    + right. right. split; [done|]. by apply (Exists_insert_here _ _ _ _ (Loaded m)).
  - (* the key is there *)
    rewrite Hknown. simpl. split.
    + apply Forall_insert; [done|]. by do 4 right.
    + destruct Hfile as [[-> HA]|[->|[-> HC]]].
      * pose proof (Forall_lookup_1 _ _ _ _ HA Hc) as [[=]|[= E]].
        by destruct sets_differ.
      * right. by left.
      * right. right. split; [done|].
        by apply (Exists_insert_other _ _ _ _ (Loaded m1)).
  - (* json.dump *)
    rewrite Hser. simpl. split.
    + apply Forall_insert; [done|]. by do 4 right.
    + right. left. by rewrite Hf1.
  - (* finished *)
    rewrite list_insert_id by done. done.
Qed.

Lemma run_ok (schedule : list nat) :
  ∀ s : system,
    Forall (caller_ok m m1 m' port) s.1 →
    file_ok f f1 m s →
    m = [] ∨ loads_apart ip protocol schedule s = true →
    Forall (caller_ok m m1 m' port) (run ip protocol schedule s).1 ∧
    file_ok f f1 m (run ip protocol schedule s).
Proof using All.
  induction schedule as [|i schedule IH]; intros s Hcs Hfile Hside; [done|].
  cbn [run]. assert (m = [] ∨ loads_apart ip protocol schedule
                                 (step_at ip protocol i s) = true) as Hrest.
  { destruct Hside as [?|Hside]; [by left|right].
    cbn [loads_apart] in Hside. by apply andb_true_iff in Hside as [_ ?]. }
  destruct (step_at_ok i s Hcs Hfile) as [Hcs' Hfile'].
  { destruct Hside as [?|Hside]; [by left|right]. intros Hc.
    cbn [loads_apart] in Hside. rewrite Hc in Hside.
    by apply andb_true_iff in Hside as [? _]. }
  by apply IH.
Qed.

(** When all callers have finished, the file holds the mapping set with
    the pair added. *)
Lemma all_finished_file (s : system) :
  s.1 ≠ [] →
  forallb is_finished s.1 = true →
  file_ok f f1 m s → s.2 = f1.
Proof.
  destruct s as [cs fl]. simpl. intros Hne Hfin [[_ HA]|[?|[_ HC]]]; [|done|].
  - destruct cs as [|c cs]; [done|]. simpl in Hfin.
    apply andb_true_iff in Hfin as [Hc _].
    apply Forall_cons in HA as [[->| ->] _]; done.
  - exfalso. induction cs as [|c cs IH]; [by apply Exists_nil in HC|].
    simpl in Hfin. apply andb_true_iff in Hfin as [Hc Hfin].
    apply Exists_cons in HC as [Hw|Hw].
    + by destruct c.
    + destruct cs as [|c' cs]; [by apply Exists_nil in Hw|]. by apply IH.
Qed.
End same_pair.

Lemma run_length (ip protocol : string) (schedule : list nat) :
  ∀ s : system, length (run ip protocol schedule s).1 = length s.1.
Proof.
  induction schedule as [|i schedule IH]; intros s; [done|].
  cbn [run]. rewrite IH. unfold step_at.
  destruct (s.1 !! i); [|done]. simpl. apply length_insert.
Qed.

(** C9, as the specification states it, fails: a store with one mapping
    of another pair, and two requests for the same new pair.  The first
    caller loads the store and opens the file for writing; the second
    caller loads the truncated file as the empty mapping set; then each
    saves.  The first caller is given port 10001, the second port
    10000, and the mapping of the other pair is lost. *)
Lemma concurrent_resolve_two_ports :
  let f := Json (JObject [("10.0.0.9|http", 10000)]) in
  load_mappings f = Ok [(mapping_key "10.0.0.9" "http", 10000)] ∧
  run "10.0.0.1" "ssh" [0; 0; 1; 0; 1; 1]%nat ([Calling; Calling], f)
  = ([Finished (Ok 10001); Finished (Ok 10000)],
     Json (JObject [("10.0.0.1|ssh", 10000)])).
Proof. split; reflexivity. Qed.

(** C9, amended.  [index] takes no lock, and [resolve] is not atomic.
    Callers that resolve the same new pair, host and protocol without
    the delimiter, at the same time all get the same port, the next
    one, and when all have finished the store holds exactly one record
    for the pair, with that port: in every interleaving of their file
    operations in which no caller loads the mapping file while another
    has it open for writing, and in every interleaving at all when the
    mapping set was empty at the start.  A caller has finished after
    three moves. *)
Theorem concurrent_resolve_same_port
    (n : nat) (schedule : list nat) (f : file) (m : mappings)
    (ip protocol : string) :
  load_mappings f = Ok m →
  Forall writable_key (keys m) →
  plain ip → plain protocol →
  dict_get m (mapping_key ip protocol) = None →
  m = [] ∨ loads_apart ip protocol schedule (replicate n Calling, f) = true →
  let s := run ip protocol schedule (replicate n Calling, f) in
  (∀ i r, s.1 !! i = Some (Finished r) → r = Ok (next_port m)) ∧
  (∀ i, (i < n)%nat → (3 ≤ moves i schedule)%nat →
        s.1 !! i = Some (Finished (Ok (next_port m)))) ∧
  ((0 < n)%nat → forallb is_finished s.1 = true →
   ∃ m1, load_mappings s.2 = Ok m1 ∧ NoDup (keys m1) ∧
         dict_get m1 (mapping_key ip protocol) = Some (next_port m)).
Proof.
  intros Hl Hw Hip Hp Hg Hside s.
  destruct (resolve_new f m ip protocol Hl Hw Hg) as (o & _ & Ho & Hnd & _).
  pose proof (load_object o Hnd) as Hl1.
  remember (map (fun kv => (split DELIMITER kv.1, kv.2)) o) as m1 eqn:Em1.
  assert (dict_get m1 (mapping_key ip protocol) = Some (next_port m)) as Hg1.
  { unfold mapping_key. rewrite <- (split_pair DELIMITER ip protocol Hip Hp).
    rewrite Em1, dict_get_loaded. by eapply serialize_items_last. }
  assert (allocate m (mapping_key ip protocol)
          = (next_port m,
             Some (m ++ [(mapping_key ip protocol, next_port m)]))) as Hnew
    by (unfold allocate; by rewrite Hg, dict_set_fresh).
  assert (allocate m1 (mapping_key ip protocol) = (next_port m, None))
    as Hknown by (unfold allocate, key; by rewrite Hg1).
  destruct (run_ok ip protocol f (Json (JObject o)) m m1 _ (next_port m) o
              Hl Hnew Ho eq_refl Hl1 Hknown schedule
              (replicate n Calling, f)) as [Hcs Hfile].
  { apply Forall_replicate. by left. }
  { left. split; [done|]. apply Forall_replicate. by left. }
  { done. }
  fold s in Hcs, Hfile.
  assert (∀ i r, s.1 !! i = Some (Finished r) → r = Ok (next_port m)) as Hres.
  { intros i r Hi.
    by pose proof (Forall_lookup_1 _ _ _ _ Hcs Hi)
      as [[=]|[[=]|[[=]|[[=]|[= ->]]]]]. }
  split_and!; [done| |].
  - intros i Hi Hmoves.
    destruct (run_progress ip protocol schedule (replicate n Calling, f)
                i Calling) as (c & Hc & Hst).
    { simpl. by apply lookup_replicate_2. }
    fold s in Hc.
    destruct c as [| | |r]; cbn [stage] in Hst; try lia.
    by rewrite (Hres i r Hc) in Hc.
  - intros Hn Hfin. exists m1.
    rewrite (all_finished_file f (Json (JObject o)) m s); [|idtac|done..].
    + split_and!; [done| |done].
      rewrite Em1, keys_loaded. apply NoDup_fmap_2; [|done].
      intros s1 s2. apply split_inj.
    + intros Hnil. apply (f_equal length) in Hnil.
      unfold s in Hnil. rewrite run_length in Hnil. simpl in Hnil.
      rewrite length_replicate in Hnil. lia.
Qed.

Lemma concurrent_resolve_same_port_witness :
  let f := Json (JObject [("10.0.0.9|http", 10000)]) in
  let schedule := [0; 1; 0; 1; 0; 1]%nat in
  load_mappings f = Ok [(mapping_key "10.0.0.9" "http", 10000)] ∧
  loads_apart "10.0.0.1" "ssh" schedule (replicate 2 Calling, f) = true ∧
  (run "10.0.0.1" "ssh" schedule (replicate 2 Calling, f)).1 !! 0%nat
  = Some (Finished (Ok 10001)) ∧
  (run "10.0.0.1" "ssh" schedule (replicate 2 Calling, f)).1 !! 1%nat
  = Some (Finished (Ok 10001)).
Proof.
  intros f schedule. split; [reflexivity|]. split; [reflexivity|].
  destruct (concurrent_resolve_same_port 2 schedule f _ "10.0.0.1" "ssh"
              eq_refl) as (_ & Hdone & _).
  - repeat constructor.
  - reflexivity.
  - reflexivity.
  - reflexivity.
  - right. reflexivity.
  - split; apply Hdone; unfold moves; simpl; lia.
Defined.

(** * One port for a pair, on plain hosts *)

Lemma dict_get_app {K V} `{EqDecision K} (d1 d2 : dict K V) (k : K) :
  dict_get (d1 ++ d2) k
  = match dict_get d1 k with
    | Some v => Some v
    | None => dict_get d2 k
    end.
Proof.
  induction d1 as [|[k' v'] d1 IH]; simpl; [done|]. by case_decide.
Qed.

(** When every resolved host and protocol is plain, the store holds
    exactly the pairs that were resolved, each with the one port that
    every call for the pair returned, and no port twice. *)
Lemma plain_history_one_port (log : list (string * string * Z)) (f : file) :
  history log f →
  Forall (fun e => plain e.1.1 ∧ plain e.1.2) log →
  ∃ m, load_mappings f = Ok m ∧
       NoDup (keys m) ∧ Forall plain_key (keys m) ∧
       values m = consecutive_ports (length m) ∧
       (∀ ip protocol port,
          (ip, protocol, port) ∈ log →
          dict_get m (mapping_key ip protocol) = Some port) ∧
       (∀ k port,
          dict_get m k = Some port →
          ∃ ip protocol, k = mapping_key ip protocol ∧
                         (ip, protocol, port) ∈ log).
Proof.
  induction 1 as [f Hl|log f ip protocol port f' _ IH Hres]; intros Hplain.
  - exists []. split_and!; [done|apply NoDup_nil_2|apply Forall_nil_2|done| |].
    + by intros ? ? ? ?%elem_of_nil.
    + by intros k port.
  - apply Forall_cons in Hplain as [[Hip Hp] Hplain]. simpl in Hip, Hp.
    destruct (IH Hplain) as (m & Hl & Hnd & Hpl & Hv & Hin & Hout).
    destruct (dict_get m (mapping_key ip protocol)) as [port0|] eqn:Hg.
    + rewrite (resolve_known f m ip protocol port0 Hl Hg) in Hres.
      injection Hres as <- <-. exists m. split_and!; [done..| |].
      * intros ip' protocol' port' [[= -> -> ->]|Hlog]%elem_of_cons;
          [done|by apply Hin].
      * intros k port' Hk. destruct (Hout k port' Hk) as (i & p & -> & Hlog).
        exists i, p. split; [done|]. by apply list_elem_of_further.
    + destruct (resolve_new_plain f m ip protocol) as [Hport Hl']; [done..|].
      rewrite Hres in Hport, Hl'. simpl in Hport, Hl'. injection Hport as ->.
      exists (m ++ [(mapping_key ip protocol, next_port m)]).
      split_and!; [done| | | | |].
      * unfold keys. rewrite fmap_app. apply NoDup_app. split; [done|].
        split; [|apply NoDup_singleton].
        intros k Hk ->%list_elem_of_singleton. by apply dict_get_None in Hg.
      * unfold keys. rewrite fmap_app. apply Forall_app. split; [done|].
        apply Forall_singleton. by apply plain_key_pair.
      * unfold values in *. rewrite fmap_app, length_app, Nat.add_1_r.
        rewrite consecutive_ports_S, Hv. simpl.
        by rewrite (next_port_consecutive m Hv).
      * intros ip' protocol' port' [[= -> -> ->]|Hlog]%elem_of_cons.
        { by apply dict_get_snoc. }
        rewrite dict_get_app. by rewrite (Hin ip' protocol' port' Hlog).
      * intros k port'. rewrite dict_get_app.
        destruct (dict_get m k) as [p|] eqn:Hk.
        { intros [= <-]. destruct (Hout k p Hk) as (i & pr & -> & Hlog).
          exists i, pr. split; [done|]. by apply list_elem_of_further. }
        simpl. case_decide as Ek; [|done]. intros [= <-].
        exists ip, protocol. split; [done|]. apply list_elem_of_here.
Qed.
